(** * ViSCAT: shot-pace statistics and VLM scene annotation

    A shallow embedding of the two 4CAT processors of the repository,

    - [processors/video_scene_data_translation.py]
      ([VideoSceneFrames.process]), module [Pace] below, and
    - [machine_learning/vlm_annotate_scene.py]
      ([VlmSceneAnnotation.process]), module [Vlm] below,

    followed by the properties of the specification stated against them.

    Conventions of the embedding.
    - A [pd.Timedelta] is its integer number of nanoseconds, a [Z].
    - A Python [float] is idealised as an exact rational [Q]; a division
      whose divisor is zero raises [ZeroDivisionError], as in Python.
    - A Python [dict] with string keys is a [gmap string string]; a list of
      dicts mutated in place is threaded through as a value.
    - Calls on [self.dataset] are recorded in a log, and the way [process]
      ends (which finishing call it makes, or which exception escapes) is
      its result. *)

From Stdlib Require Import ZArith QArith Lia.
From stdpp Require Import base strings list gmap sorting pretty.

Local Open Scope Z_scope.

(** ** Pipeline 1: [video_scene_data_translation.py] *)

Module Pace.

(** Exceptions that can escape [process]. *)
Inductive exception :=
| ProcessorInterruptedException (msg : string)
| ZeroDivisionError
| KeyError (key : string).

(** One item of [self.source_dataset.iterate_items(self)], with the fields
    the loop reads.  The three durations are given as parsed by
    [pd.to_timedelta], the scene count as parsed by [int]. *)
Record shot := {
  url : string;
  start_time : Z;
  end_time : Z;
  total_video_duration : Z;
  start_fps : string;
  num_scenes_detected : Z
}.

(** One dict of [video_metadata] as built by lines 105-111; the field [id]
    of the source is [vid] here. *)
Record video := {
  vid : string;
  frame_rate : string;
  shot_count : Z;
  total_duration : Z;
  shot_duration_list : list Z
}.

(** The same dict after lines 115-125 added ['asl'], ['msl'] and
    ['cuts_per_min'].  [msl] is [None] when [np.median] has no value. *)
Record video_stats := {
  meta : video;
  asl : Q;
  msl : option Q;
  cuts_per_min : Q
}.

(** Lines 98-102: every dict whose id is that of the shot gets the shot's
    duration appended (the loop has no [break]). *)
Definition append_duration (i : string) (d : Z) (v : video) : video :=
  if String.eqb (vid v) i
  then {| vid := vid v; frame_rate := frame_rate v; shot_count := shot_count v;
          total_duration := total_duration v;
          shot_duration_list := shot_duration_list v ++ [d] |}
  else v.

(** [id_exist] after the loop of lines 98-102. *)
Definition id_exist (i : string) (video_metadata : list video) : bool :=
  existsb (fun v => String.eqb (vid v) i) video_metadata.

(** Line 96. *)
Definition shot_duration (s : shot) : Z := end_time s - start_time s.

(** Lines 88-111: the body of the loop over shots, after the interruption
    check. *)
Definition add_shot (video_metadata : list video) (s : shot) : list video :=
  let updated :=
    map (append_duration (url s) (shot_duration s)) video_metadata in
  if id_exist (url s) video_metadata then updated
  else updated ++ [ {| vid := url s;
                       frame_rate := start_fps s;
                       shot_count := num_scenes_detected s;
                       total_duration := total_video_duration s;
                       shot_duration_list := [shot_duration s] |} ].

(** Lines 83-111.  [interrupted k] is the value of [self.interrupted] read
    before the record of index [k] is handled. *)
Fixpoint aggregate_from (interrupted : nat -> bool) (k : nat)
    (shots : list shot) (video_metadata : list video)
  : exception + list video :=
  match shots with
  | [] => inr video_metadata
  | s :: rest =>
      if interrupted k
      then inl (ProcessorInterruptedException
                  "Interrupted while detecting video scenes")
      else aggregate_from interrupted (S k) rest (add_shot video_metadata s)
  end.

Definition aggregate (interrupted : nat -> bool) (shots : list shot)
  : exception + list video :=
  aggregate_from interrupted 0 shots [].

(** [Timedelta.total_seconds()]. *)
Definition total_seconds (td : Z) : Q :=
  (inject_Z td / inject_Z 1000000000)%Q.

(** [a[i:j]] for [0 <= i <= j]. *)
Definition slice {A} (i j : nat) (a : list A) : list A :=
  take (j - i) (drop i a).

(** [np.mean] of a non-empty array. *)
Definition np_mean (a : list Z) : Q :=
  (inject_Z (foldr Z.add 0%Z a) / inject_Z (Z.of_nat (length a)))%Q.

(** [np.median] of a one-dimensional array, after numpy's [_median]: the
    array is partitioned around the middle position(s), [index] is half the
    size, and the result is the mean of [part[index:index+1]] for an odd
    size and of [part[index-1:index+1]] for an even one.  A partition has,
    at the requested positions, the elements of the sorted array; it is
    taken to be the sorted array.  The empty array has no median (numpy
    gives NaN or NaT). *)
Definition np_median (a : list Z) : option Q :=
  let sz := length a in
  let part := merge_sort Z.le a in
  let index := (sz / 2)%nat in
  if Nat.eqb sz 0 then None
  else if Nat.odd sz then Some (np_mean (slice index (index + 1) part))
  else Some (np_mean (slice (index - 1) (index + 1) part)).

(** Lines 116-125 for one video.  Both quotients are Python true divisions
    and raise when the divisor is zero. *)
Definition calculate (v : video) : exception + video_stats :=
  if (shot_count v =? 0)%Z then inl ZeroDivisionError
  else
    let asl := (total_seconds (total_duration v) / inject_Z (shot_count v))%Q in
    let msl := np_median (shot_duration_list v) in
    let minutes := (total_seconds (total_duration v) / 60)%Q in
    if Qeq_bool minutes 0 then inl ZeroDivisionError
    else inr {| meta := v; asl := asl; msl := msl;
                cuts_per_min := (inject_Z (shot_count v - 1) / minutes)%Q |}.

(** Lines 115-125: the first exception ends the loop. *)
Fixpoint calculate_all (video_metadata : list video)
  : exception + list video_stats :=
  match video_metadata with
  | [] => inr []
  | v :: rest =>
      match calculate v with
      | inl e => inl e
      | inr r =>
          match calculate_all rest with
          | inl e => inl e
          | inr rs => inr (r :: rs)
          end
      end
  end.

(** One item of [self.dataset.top_parent().iterate_items(self)]. *)
Record parent_row := {
  parent_id : string;
  parent_fields : gmap string string
}.

(** A row handed to [write_csv_items_and_finish]: in merged mode a parent
    row with the columns of the matching video (or none, the columns being
    NaN), in standalone mode a video. *)
Inductive output_row :=
| Merged (p : parent_row) (v : option video_stats)
| Standalone (v : video_stats).

(** The rows [pd.merge(.., how='left')] produces for one left row: one per
    right row with the same key, in the order of the right frame, or a
    single one without right columns. *)
Definition join_row (right : list video_stats) (p : parent_row)
  : list output_row :=
  match filter (fun v => vid (meta v) = parent_id p) right with
  | [] => [Merged p None]
  | ms => map (fun v => Merged p (Some v)) ms
  end.

(** Lines 139-144: [pd.merge(df_video_list, df_video_metadata, on='id',
    how='left')].  [pd.DataFrame] of an empty list has no column at all, so
    the key ['id'] is missing from the left frame and the merge raises
    [KeyError]; otherwise the keys of the left frame are kept in their
    order.  The renaming of columns that both frames have is not
    modelled. *)
Definition pd_merge_left (left : list parent_row) (right : list video_stats)
  : exception + list output_row :=
  match left with
  | [] => inl (KeyError "id")
  | _ => inr (flat_map (join_row right) left)
  end.

Record source_dataset := {
  num_rows : Z;
  items : list shot
}.

(** How [process] ends. *)
Inductive result :=
| Finish (n : Z)
| WriteCsvItemsAndFinish (rows : list output_row)
| FinishWithError (msg : string)
| Raise (e : exception).

(** A call of [self.dataset.update_status]. *)
Record status := {
  status_msg : string;
  is_final : bool
}.

(** Lines 72 and 76. *)
Definition no_videos : status :=
  {| status_msg := "No videos from which to extract frames.";
     is_final := true |}.

Definition started : status :=
  {| status_msg := "Translating data and processing calculations...";
     is_final := false |}.

(** Lines 128-153. *)
Definition finish_stage (merge_on_parent : bool) (top_parent : list parent_row)
    (video_metadata : list video_stats) : list status * result :=
  match video_metadata with
  | [] =>
      ([], FinishWithError
             "Unable to translate video metadata. Error encountered")
  | _ =>
      if merge_on_parent then
        ([ {| status_msg :=
                "Translation and calculation successful. Merged onto parent dataset";
              is_final := false |} ],
         match pd_merge_left top_parent video_metadata with
         | inl e => Raise e
         | inr merged_metadata => WriteCsvItemsAndFinish merged_metadata
         end)
      else
        ([ {| status_msg := "Translation and calculation successful.";
              is_final := false |} ],
         WriteCsvItemsAndFinish (map Standalone video_metadata))
  end.

(** [VideoSceneFrames.process]: the statuses reported and the way the run
    ends. *)
Definition process (merge_on_parent : bool) (interrupted : nat -> bool)
    (source : source_dataset) (top_parent : list parent_row)
  : list status * result :=
  if (num_rows source =? 0)%Z then ([no_videos], Finish 0)
  else
    match aggregate interrupted (items source) with
    | inl e => ([started], Raise e)
    | inr video_metadata =>
        match calculate_all video_metadata with
        | inl e => ([started], Raise e)
        | inr stats =>
            let '(log, r) := finish_stage merge_on_parent top_parent stats in
            (started :: log, r)
        end
    end.

(** *** Notions of the specification *)

(** The first record of the stream with the id of [v] seeded its frame
    rate, shot count and total duration. *)
Definition seeded_by (shots : list shot) (v : video) : Prop :=
  exists pre s post,
    shots = pre ++ s :: post /\
    Forall (fun s' => url s' <> vid v) pre /\
    url s = vid v /\
    frame_rate v = start_fps s /\
    shot_count v = num_scenes_detected s /\
    total_duration v = total_video_duration s.

(** The durations of the records with id [i], in stream order. *)
Definition durations_of (i : string) (shots : list shot) : list Z :=
  shot_duration <$> filter (fun s => url s = i) shots.

(** [video_metadata] groups the stream [shots] by id. *)
Definition aggregates_of (shots : list shot) (video_metadata : list video)
  : Prop :=
  NoDup (vid <$> video_metadata) /\
  (forall i, i ∈ vid <$> video_metadata <-> i ∈ url <$> shots) /\
  Forall (fun v => seeded_by shots v /\
                   shot_duration_list v = durations_of (vid v) shots)
         video_metadata.

(** The median in the words of the specification: the middle element of
    the sorted list for an odd length, the arithmetic mean of the two
    middle elements for an even one. *)
Definition middle_median (a : list Z) : option Q :=
  let sorted := merge_sort Z.le a in
  let n := length a in
  if Nat.odd n then inject_Z <$> sorted !! (n / 2)%nat
  else
    match sorted !! (n / 2 - 1)%nat, sorted !! (n / 2)%nat with
    | Some x, Some y => Some ((inject_Z x + inject_Z y) / 2)%Q
    | _, _ => None
    end.

(** How many elements of [l] satisfy [P]. *)
Definition count (P : Z -> bool) (l : list Z) : nat :=
  length (List.filter P l).

(** How many elements lie strictly below and strictly above [m]. *)
Definition below (m : Q) (a : list Z) : nat :=
  count (fun x => negb (Qle_bool m (inject_Z x))) a.

Definition above (m : Q) (a : list Z) : nat :=
  count (fun x => negb (Qle_bool (inject_Z x) m)) a.

(** [m] is a median of [a]: at most half of the elements lie on either
    side of it. *)
Definition is_median (a : list Z) (m : Q) : Prop :=
  (2 * below m a <= length a)%nat /\ (2 * above m a <= length a)%nat.

(** The video a parent row is joined with, if any. *)
Definition find_video (stats : list video_stats) (p : parent_row)
  : option video_stats :=
  List.find (fun v => String.eqb (vid (meta v)) (parent_id p)) stats.

(** The messages [process] can report. *)
Definition known_messages : list string :=
  [ "No videos from which to extract frames.";
    "Translating data and processing calculations...";
    "Translation and calculation successful. Merged onto parent dataset";
    "Translation and calculation successful." ].

(** *** The compatibility check and further notions *)

(** Line 63: [is_compatible_with], on [module.type]. *)
Definition is_compatible_with (module_type : string) : bool :=
  existsb (String.eqb module_type)
          ["video-scene-detector"; "preset-scene-timelines"].

(** [s] is the first record of the stream with its id. *)
Definition first_record (shots : list shot) (s : shot) : Prop :=
  exists pre post,
    shots = pre ++ s :: post /\ Forall (fun s' => url s' <> url s) pre.

(** The number of durations held by all aggregates together. *)
Definition total_durations (video_metadata : list video) : nat :=
  sum_list_with (fun v => length (shot_duration_list v)) video_metadata.

End Pace.

(** ** Pipeline 2: [vlm_annotate_scene.py] *)

Module Vlm.

(** Exceptions that can escape [process]. *)
Inductive exception :=
| JSONDecodeError
| ZeroDivisionError
| UnboundLocalError.

(** An entry of the archive, a [pathlib.Path]: its final component, and
    whether its content parses as JSON (read for the metadata entry only). *)
Record archive_file := {
  name : string;
  valid_json : bool
}.

(** What [next(iterator)] does at line 113 short of [StopIteration], which
    is the end of the list: it returns a path or raises another exception,
    which line 118 catches.  (A generator can raise only as its last event;
    any iterator is covered.) *)
Inductive next_result :=
| Yield (file_path : archive_file)
| ReadError (e : string).

(** The answer of the model server to [get_vlm_prediction]: the content of
    the prediction, or an exception with its text. *)
Inductive response :=
| Prediction (content : string)
| Failure (e : string).

(** Calls the run makes on [self.dataset], and what it prints. *)
Inductive call :=
| UpdateStatus (msg : string)
| UpdateProgress (progress : Q)
| Printed (msg : string).

(** [name.rfind('.')]. *)
Fixpoint rfind_dot (s : string) : option nat :=
  match s with
  | EmptyString => None
  | String c s' =>
      match rfind_dot s' with
      | Some i => Some (S i)
      | None => if Ascii.eqb c (Ascii.ascii_of_nat 46) then Some 0%nat else None
      end
  end.

(** [Path.suffix]: the name from its last dot on, unless that dot is the
    first or the last character. *)
Definition suffix (name : string) : string :=
  match rfind_dot name with
  | Some i =>
      if ((0 <? i)%nat && (i <? String.length name - 1)%nat)%bool
      then String.substring i (String.length name - i) name
      else ""
  | None => ""
  end.

(** Line 128: [file_path.suffix not in (".jpeg", ".jpg", ".png", ".gif")],
    negated. *)
Definition image_suffix (sfx : string) : bool :=
  (String.eqb sfx ".jpeg" || String.eqb sfx ".jpg" ||
   String.eqb sfx ".png" || String.eqb sfx ".gif")%bool.

(** [re.sub(pat, '', s)] for a literal, non-empty pattern: occurrences are
    removed from left to right, and [skip] characters of an occurrence are
    still to be dropped. *)
Fixpoint remove_from (pat : string) (skip : nat) (s : string) : string :=
  match s with
  | EmptyString => EmptyString
  | String c s' =>
      match skip with
      | S k => remove_from pat k s'
      | O =>
          if String.prefix pat s
          then remove_from pat (String.length pat - 1) s'
          else String c (remove_from pat 0 s')
      end
  end.

(** Lines 147-149: [cleaned_id] and [target_id]. *)
Definition cleaned_id (scene_id : string) : string :=
  remove_from ".mp4" 0 scene_id.

Definition target_id (scene_id : string) : string :=
  cleaned_id scene_id +:+ ".jpeg".

(** The outcome of the scan of lines 143-155: the list with the first
    matching dict updated, no match, or the [KeyError] of [scene_dict['id']]
    on a dict without that key. *)
Inductive scan :=
| Matched (scene_list : list (gmap string string))
| NoMatch
| ScanKeyError.

(** Lines 143-155. *)
Fixpoint match_scene (column_name prediction file_name : string)
    (scene_list : list (gmap string string)) : scan :=
  match scene_list with
  | [] => NoMatch
  | scene_dict :: rest =>
      match scene_dict !! "id" with
      | None => ScanKeyError
      | Some scene_id =>
          if String.eqb (target_id scene_id) file_name
          then Matched (<[column_name := prediction]> scene_dict :: rest)
          else
            match match_scene column_name prediction file_name rest with
            | Matched rest' => Matched (scene_dict :: rest')
            | NoMatch => NoMatch
            | ScanKeyError => ScanKeyError
            end
      end
  end.

(** Lines 136-162 and [get_vlm_prediction]: the calls made and the scene
    list afterwards.  Every exception of the [try] block is caught at line
    161. *)
Definition annotate (column_name : string) (answer : response)
    (file_path : archive_file) (scene_list : list (gmap string string))
  : list call * list (gmap string string) :=
  let predicting :=
    UpdateStatus ("Predicting scene annotation for " +:+ name file_path) in
  match answer with
  | Failure e =>
      ([predicting; UpdateStatus ("Error in VLM prediction: " +:+ e)],
       scene_list)
  | Prediction content =>
      let predicted :=
        UpdateStatus ("Prediction for image " +:+ name file_path +:+ ": "
                      +:+ content) in
      match match_scene column_name content (name file_path) scene_list with
      | Matched scene_list' => ([predicting; predicted], scene_list')
      | NoMatch =>
          ([predicting; predicted;
            UpdateStatus ("No match found for " +:+ name file_path)],
           scene_list)
      | ScanKeyError =>
          ([predicting; predicted;
            UpdateStatus "Error in VLM prediction: 'id'"],
           scene_list)
      end
  end.

(** The local variables of the [while] loop. *)
Record loop_state := {
  file_path : option archive_file;
  scene_count : nat;
  scene_list : list (gmap string string)
}.

(** Lines 121-162 for the current [file_path].  [respond k f] is the answer
    of the model server to the [k]-th prediction, asked for file [f]. *)
Definition handle (column_name : string)
    (respond : nat -> archive_file -> response)
    (f : archive_file) (st : loop_state)
  : list call * (exception + loop_state) :=
  let st := {| file_path := Some f; scene_count := scene_count st;
               scene_list := scene_list st |} in
  if String.eqb (name f) ".metadata.json" then
    if valid_json f then ([], inr st) else ([], inl JSONDecodeError)
  else if negb (image_suffix (suffix (name f))) then ([], inr st)
  else
    let scene_count := S (scene_count st) in
    let total := length (scene_list st) in
    let read :=
      UpdateStatus (name f +:+ " read by VLM (" +:+ pretty scene_count +:+ "/"
                    +:+ pretty total +:+ ")") in
    if Nat.eqb total 0 then ([read], inl ZeroDivisionError)
    else
      let progress :=
        UpdateProgress (inject_Z (Z.of_nat scene_count)
                        / inject_Z (Z.of_nat total))%Q in
      let '(log, scene_list') :=
        annotate column_name (respond scene_count f) f (scene_list st) in
      (read :: progress :: log,
       inr {| file_path := Some f; scene_count := scene_count;
              scene_list := scene_list' |}).

(** Lines 111-162.  After a caught read error the body runs with the
    [file_path] of the previous iteration, which is unbound in the first. *)
Fixpoint loop (column_name : string)
    (respond : nat -> archive_file -> response)
    (iterator : list next_result) (st : loop_state)
  : list call * (exception + loop_state) :=
  match iterator with
  | [] => ([], inr st)
  | ev :: rest =>
      let '(printed, current) :=
        match ev with
        | Yield f => ([], Some f)
        | ReadError e =>
            ([Printed ("Error reading file: " +:+ e)], file_path st)
        end in
      match current with
      | None => (printed, inl UnboundLocalError)
      | Some f =>
          match handle column_name respond f st with
          | (log, inl e) => (printed ++ log, inl e)
          | (log, inr st') =>
              let '(log', r) := loop column_name respond rest st' in
              (printed ++ log ++ log', r)
          end
      end
  end.

(** A dataset of [self.dataset.get_genealogy()]: its type and its items. *)
Record past_dataset := {
  type : string;
  dataset_items : list (gmap string string)
}.

(** Lines 85-90. *)
Definition find_scene_dataset (genealogy_list : list past_dataset)
  : option past_dataset :=
  List.find (fun d => String.eqb (type d) "video-scene-detector")
            genealogy_list.

(** How [process] ends. *)
Inductive result :=
| WriteCsvItemsAndFinish (rows : list (gmap string string))
| FinishWithError (msg : string)
| Raise (e : exception).

(** [VlmSceneAnnotation.process]. *)
Definition process (column_name : string)
    (respond : nat -> archive_file -> response)
    (genealogy_list : list past_dataset) (archive : list next_result)
  : list call * result :=
  match find_scene_dataset genealogy_list with
  | None => ([], FinishWithError "No video scene metadata found")
  | Some scene_dataset =>
      let start := {| file_path := None; scene_count := 0;
                      scene_list := dataset_items scene_dataset |} in
      match loop column_name respond archive start with
      | (log, inl e) => (log, Raise e)
      | (log, inr st) =>
          match scene_list st with
          | [] => (log, FinishWithError "No files found in archive")
          | rows => (log, WriteCsvItemsAndFinish rows)
          end
      end
  end.

(** *** Notions of the specification *)

(** An entry is an image entry when it is not the metadata entry and its
    suffix is one of the four image suffixes. *)
Definition image_file (f : archive_file) : bool :=
  negb (String.eqb (name f) ".metadata.json")
  && image_suffix (suffix (name f)).

(** The progress values among the calls of a run, in order. *)
Definition progress_values (log : list call) : list Q :=
  omap (fun c => match c with UpdateProgress q => Some q | _ => None end) log.

(** [k / n] as line 135 computes it. *)
Definition ratio (n k : nat) : Q :=
  (inject_Z (Z.of_nat k) / inject_Z (Z.of_nat n))%Q.

(** A scene dict has an id, and its target differs from [file_name]. *)
Definition other_target (file_name : string) (scene_dict : gmap string string)
  : Prop :=
  exists scene_id,
    scene_dict !! "id" = Some scene_id /\ target_id scene_id <> file_name.

(** The calls of lines 134-139 for the [k]-th image [f], answered by
    [content], with [n] scene records. *)
Definition predicted_log (f : archive_file) (k n : nat) (content : string)
  : list call :=
  [ UpdateStatus (name f +:+ " read by VLM (" +:+ pretty k +:+ "/"
                  +:+ pretty n +:+ ")");
    UpdateProgress (ratio n k);
    UpdateStatus ("Predicting scene annotation for " +:+ name f);
    UpdateStatus ("Prediction for image " +:+ name f +:+ ": " +:+ content) ].

(** *** The compatibility check and further notions *)

(** Line 79: [is_compatible_with], on [module.type]. *)
Definition is_compatible_with (module_type : string) : bool :=
  existsb (String.eqb module_type)
          ["video-scene-frames"; "preset-scene-timelines";
           "vlm-annotate-scenes"].

(** What a run of the loop leaves to the rest of [process]: the calls made,
    and the exception or else the final count and scene list. *)
Definition outcome (r : list call * (exception + loop_state))
  : list call * (exception + nat * list (gmap string string)) :=
  (r.1,
   match r.2 with
   | inl e => inl e
   | inr st => inr (scene_count st, scene_list st)
   end).

(** The metadata entry, if [f] is it, holds valid JSON. *)
Definition valid_metadata (f : archive_file) : Prop :=
  name f = ".metadata.json" -> valid_json f = true.

(** [scene_dict'] is [scene_dict], or [scene_dict] with the output column
    set to a prediction the model server gave. *)
Definition annotated (column_name : string)
    (respond : nat -> archive_file -> response)
    (scene_dict scene_dict' : gmap string string) : Prop :=
  scene_dict' = scene_dict \/
  exists k f content,
    respond k f = Prediction content /\
    scene_dict' = <[column_name := content]> scene_dict.

End Vlm.

(** ** Concrete inputs *)

Module PaceExamples.
Import Pace.

Definition seconds (n : Z) : Z := n * 1000000000.

Definition never (k : nat) : bool := false.

Definition shot_of (i : string) (t0 t1 : Z) (n : Z) (total : Z) : shot :=
  {| url := i; start_time := seconds t0; end_time := seconds t1;
     total_video_duration := seconds total; start_fps := "30";
     num_scenes_detected := n |}.

(** Three shots of 10, 20 and 30 seconds of a two-minute video. *)
Definition three_shots : list shot :=
  [ shot_of "a" 0 10 3 120; shot_of "a" 10 30 3 120; shot_of "a" 30 60 3 120 ].

Definition three_shot_video : video :=
  {| vid := "a"; frame_rate := "30"; shot_count := 3;
     total_duration := seconds 120;
     shot_duration_list := [seconds 10; seconds 20; seconds 30] |}.

(** A shot that ends five seconds before it starts. *)
Definition inverted_shot : shot := shot_of "a" 20 15 3 120.

(** A video whose upstream scene count is zero, after a regular one. *)
Definition zero_count_source : source_dataset :=
  {| num_rows := 4; items := three_shots ++ [shot_of "b" 0 10 0 120] |}.

Definition three_shot_source : source_dataset :=
  {| num_rows := 3; items := three_shots |}.

Definition empty_source : source_dataset := {| num_rows := 0; items := [] |}.

Definition unreadable_source : source_dataset :=
  {| num_rows := 1; items := [] |}.

Definition parent_of (i : string) : parent_row :=
  {| parent_id := i; parent_fields := {[ "body" := "text" ]} |}.

Definition parents : list parent_row :=
  [ parent_of "x"; parent_of "a"; parent_of "y" ].

End PaceExamples.

Module VlmExamples.
Import Vlm.

Definition scene_1 : gmap string string :=
  {[ "id" := "123.mp4_scene_1"; "start_time" := "00:00:00" ]}.

Definition scene_2 : gmap string string :=
  {[ "id" := "123.mp4_scene_2"; "start_time" := "00:00:10" ]}.

Definition genealogy (scenes : list (gmap string string))
  : list past_dataset :=
  [ {| type := "video-scene-frames"; dataset_items := [] |};
    {| type := "video-scene-detector"; dataset_items := scenes |};
    {| type := "video-downloader"; dataset_items := [] |} ].

Definition image_1 : archive_file :=
  {| name := "123_scene_1.jpeg"; valid_json := false |}.

Definition image_2 : archive_file :=
  {| name := "123_scene_2.jpeg"; valid_json := false |}.

Definition image_unknown : archive_file :=
  {| name := "999_scene_1.jpeg"; valid_json := false |}.

Definition bad_metadata : archive_file :=
  {| name := ".metadata.json"; valid_json := false |}.

Definition says_cat (k : nat) (f : archive_file) : response :=
  Prediction "cat".

Definition refuses (k : nat) (f : archive_file) : response :=
  Failure "connection refused".

Definition start_of (scenes : list (gmap string string)) : loop_state :=
  {| file_path := None; scene_count := 0; scene_list := scenes |}.

End VlmExamples.

Module MoreExamples.
Import Vlm.

Definition good_metadata : archive_file :=
  {| name := ".metadata.json"; valid_json := true |}.

Definition notes_file : archive_file :=
  {| name := "notes.txt"; valid_json := false |}.

Definition image_png : archive_file :=
  {| name := "123_scene_1.png"; valid_json := false |}.

(** The model server says "cat" first and "dog" from then on. *)
Definition cat_then_dog (k : nat) (f : archive_file) : response :=
  if Nat.eqb k 1 then Prediction "cat" else Prediction "dog".

End MoreExamples.

(** * Properties *)

Section PaceAggregator.
Import Pace.

Lemma vid_append_duration i d v : vid (append_duration i d v) = vid v.
Proof. unfold append_duration. by destruct (String.eqb _ _). Qed.

Lemma vids_append_duration i d vm :
  vid <$> map (append_duration i d) vm = vid <$> vm.
Proof.
  induction vm as [|v vm IH]; [done|].
  cbn. by rewrite vid_append_duration, IH.
Qed.

Lemma id_exist_true i vm : id_exist i vm = true <-> i ∈ vid <$> vm.
Proof.
  unfold id_exist. rewrite existsb_exists, list_elem_of_fmap.
  split.
  - intros (v & Hin & Heq). apply String.eqb_eq in Heq.
    exists v. split; [done|]. by apply list_elem_of_In.
  - intros (v & -> & Hin). exists v. split; [by apply list_elem_of_In|].
    apply String.eqb_refl.
Qed.

Lemma id_exist_false i vm : id_exist i vm = false <-> i ∉ vid <$> vm.
Proof.
  rewrite <- id_exist_true. destruct (id_exist i vm); naive_solver.
Qed.

Lemma durations_of_snoc i shots s :
  durations_of i (shots ++ [s]) =
  durations_of i shots ++ (if String.eqb (url s) i then [shot_duration s] else []).
Proof.
  unfold durations_of. rewrite filter_app, fmap_app. f_equal.
  destruct (String.eqb_spec (url s) i) as [Heq|Hne].
  - by rewrite filter_cons_True.
  - by rewrite filter_cons_False.
Qed.

Lemma durations_of_absent i shots :
  i ∉ url <$> shots -> durations_of i shots = [].
Proof.
  intros Hni. unfold durations_of.
  induction shots as [|s shots IH]; [done|].
  rewrite fmap_cons, not_elem_of_cons in Hni. destruct Hni as [Hne Hni].
  rewrite filter_cons_False by congruence. by apply IH.
Qed.

Lemma seeded_by_snoc shots s v : seeded_by shots v -> seeded_by (shots ++ [s]) v.
Proof.
  intros (pre & s0 & post & -> & Hpre & Hrest).
  exists pre, s0, (post ++ [s]). split; [|done].
  by rewrite <- app_assoc.
Qed.

Lemma seeded_by_append_duration shots i d v :
  seeded_by shots v -> seeded_by shots (append_duration i d v).
Proof.
  unfold append_duration. by destruct (String.eqb _ _).
Qed.

Lemma aggregates_of_nil : aggregates_of [] [].
Proof.
  split; [constructor|]. split; [|constructor].
  intros i. cbn. split; intros H; by apply elem_of_nil in H.
Qed.

Lemma append_duration_step shots s v :
  seeded_by shots v ->
  shot_duration_list v = durations_of (vid v) shots ->
  seeded_by (shots ++ [s]) (append_duration (url s) (shot_duration s) v) /\
  shot_duration_list (append_duration (url s) (shot_duration s) v) =
    durations_of (vid (append_duration (url s) (shot_duration s) v)) (shots ++ [s]).
Proof.
  intros Hseed Hdur. split.
  - by apply seeded_by_snoc, seeded_by_append_duration.
  - rewrite vid_append_duration, durations_of_snoc. unfold append_duration.
    rewrite (String.eqb_sym (url s)).
    destruct (String.eqb (vid v) (url s)); cbn.
    + by rewrite Hdur.
    + by rewrite app_nil_r.
Qed.

Lemma aggregates_of_snoc shots vm s :
  aggregates_of shots vm -> aggregates_of (shots ++ [s]) (add_shot vm s).
Proof.
  intros (Hnd & Hids & Hall). unfold add_shot.
  assert (Hupd : Forall (fun v => seeded_by (shots ++ [s]) v /\
                   shot_duration_list v = durations_of (vid v) (shots ++ [s]))
                  (map (append_duration (url s) (shot_duration s)) vm)).
  { apply Forall_fmap. eapply Forall_impl; [exact Hall|].
    intros v [Hseed Hdur]. by apply append_duration_step. }
  destruct (id_exist (url s) vm) eqn:Hex.
  - apply id_exist_true in Hex.
    split; [by rewrite vids_append_duration|]. split; [|done].
    intros i. rewrite vids_append_duration, fmap_app, elem_of_app, Hids.
    cbn. rewrite list_elem_of_singleton. split; [tauto|].
    intros [H| ->]; [done|]. by apply Hids.
  - apply id_exist_false in Hex.
    split; [|split].
    + rewrite fmap_app, vids_append_duration. cbn.
      apply NoDup_app. split; [done|]. split; [|apply NoDup_singleton].
      intros i Hi Hi'. apply list_elem_of_singleton in Hi'. by subst.
    + intros i. rewrite !fmap_app, vids_append_duration, !elem_of_app, Hids.
      done.
    + apply Forall_app. split; [done|]. apply Forall_singleton. cbn.
      assert (Hni : url s ∉ url <$> shots) by (by rewrite <- Hids).
      split.
      * exists shots, s, []. split; [done|]. split; [|done].
        apply Forall_forall. intros s' Hs' Heq. apply Hni.
        cbn in Heq. rewrite <- Heq. by apply list_elem_of_fmap_2.
      * rewrite durations_of_snoc, String.eqb_refl.
        by rewrite durations_of_absent.
Qed.

Lemma aggregates_of_foldl shots : aggregates_of shots (foldl add_shot [] shots).
Proof.
  induction shots as [|s shots IH] using rev_ind.
  - apply aggregates_of_nil.
  - rewrite foldl_app. cbn. by apply aggregates_of_snoc.
Qed.

Lemma aggregate_from_inr interrupted shots :
  forall k vm vm',
    aggregate_from interrupted k shots vm = inr vm' -> vm' = foldl add_shot vm shots.
Proof.
  induction shots as [|s shots IH]; intros k vm vm' H; cbn in *.
  - by inversion H.
  - destruct (interrupted k); [done|]. by eapply IH.
Qed.

Lemma aggregate_from_not_interrupted interrupted shots :
  forall k vm,
    (forall j, (k <= j < k + length shots)%nat -> interrupted j = false) ->
    aggregate_from interrupted k shots vm = inr (foldl add_shot vm shots).
Proof.
  induction shots as [|s shots IH]; intros k vm Hint; cbn in *; [done|].
  rewrite Hint by lia. apply IH. intros j Hj. apply Hint. lia.
Qed.

End PaceAggregator.

Section PaceStatistics.
Import Pace.

Lemma minutes_zero td : Qeq_bool (total_seconds td / 60) 0 = true <-> td = 0.
Proof.
  rewrite Qeq_bool_iff. unfold total_seconds, Qeq. cbn. lia.
Qed.

Lemma calculate_raises v e : calculate v = inl e -> e = ZeroDivisionError.
Proof.
  unfold calculate. destruct (shot_count v =? 0); [congruence|].
  destruct (Qeq_bool _ _); congruence.
Qed.

Lemma calculate_zero v :
  shot_count v = 0 \/ total_duration v = 0 -> calculate v = inl ZeroDivisionError.
Proof.
  intros H. unfold calculate.
  destruct (Z.eqb_spec (shot_count v) 0) as [|Hc]; [done|].
  destruct H as [H|H]; [done|].
  apply minutes_zero in H. by rewrite H.
Qed.

Lemma calculate_nonzero v :
  shot_count v <> 0 -> total_duration v <> 0 ->
  calculate v =
    inr {| meta := v;
           asl := total_seconds (total_duration v) / inject_Z (shot_count v);
           msl := np_median (shot_duration_list v);
           cuts_per_min := inject_Z (shot_count v - 1)
                           / (total_seconds (total_duration v) / 60) |}.
Proof.
  intros Hc Hd. unfold calculate.
  destruct (Z.eqb_spec (shot_count v) 0) as [|_]; [done|].
  destruct (Qeq_bool _ _) eqn:Hq; [|done].
  by apply minutes_zero in Hq.
Qed.

Lemma calculate_all_raises vm e : calculate_all vm = inl e -> e = ZeroDivisionError.
Proof.
  induction vm as [|v vm IH]; cbn; [done|].
  destruct (calculate v) eqn:Hv.
  - intros [= <-]. by eapply calculate_raises.
  - destruct (calculate_all vm); [|done]. intros [= <-]. by apply IH.
Qed.

Lemma calculate_meta v r : calculate v = inr r -> meta r = v.
Proof.
  unfold calculate. destruct (shot_count v =? 0); [done|].
  destruct (Qeq_bool _ _); [done|]. by intros [= <-].
Qed.

Lemma calculate_all_meta vm : forall stats,
  calculate_all vm = inr stats -> meta <$> stats = vm.
Proof.
  induction vm as [|v vm IH]; cbn; intros stats.
  - by intros [= <-].
  - destruct (calculate v) eqn:Hv; [done|].
    destruct (calculate_all vm); [done|]. intros [= <-]. cbn.
    f_equal; [by apply calculate_meta | by apply IH].
Qed.

Lemma calculate_all_zero vm v :
  v ∈ vm -> shot_count v = 0 \/ total_duration v = 0 ->
  calculate_all vm = inl ZeroDivisionError.
Proof.
  intros Hin Hz.
  destruct (calculate_all vm) as [e|stats] eqn:Hall.
  - f_equal. by eapply calculate_all_raises.
  - exfalso. revert stats Hall.
    induction Hin as [v vm|v w vm Hin IH]; cbn; intros stats.
    + by rewrite (calculate_zero _ Hz).
    + destruct (calculate w); [done|].
      destruct (calculate_all vm) eqn:Hvm; [done|]. intros _. by eapply IH.
Qed.

Lemma calculate_all_nonzero vm :
  Forall (fun v => shot_count v <> 0 /\ total_duration v <> 0) vm ->
  exists stats, calculate_all vm = inr stats.
Proof.
  induction 1 as [|v vm [Hc Hd] _ [stats IH]]; cbn; [by eexists|].
  rewrite (calculate_nonzero _ Hc Hd), IH. by eexists.
Qed.

End PaceStatistics.

Section PaceMedian.
Import Pace.

Lemma count_cons P x l :
  count P (x :: l) = ((if P x then 1 else 0) + count P l)%nat.
Proof. unfold count. cbn. by destruct (P x). Qed.

Lemma count_le_length P l : (count P l <= length l)%nat.
Proof.
  induction l as [|x l IH]; [done|].
  rewrite count_cons. cbn. destruct (P x); lia.
Qed.

Lemma count_perm P l l' : l ≡ₚ l' -> count P l = count P l'.
Proof.
  induction 1 as [|x l l' _ IH|x y l|l l' l'' _ IH1 _ IH2];
    rewrite ?count_cons; [done|by rewrite IH|lia|congruence].
Qed.

Lemma count_mono (P P' : Z -> bool) l :
  (forall x, P x = true -> P' x = true) -> (count P l <= count P' l)%nat.
Proof.
  intros HP. induction l as [|x l IH]; [done|].
  rewrite !count_cons. specialize (HP x).
  destruct (P x), (P' x); try lia.
Qed.

Lemma count_none P l : Forall (fun x => P x = false) l -> count P l = 0%nat.
Proof.
  induction 1 as [|x l Hx _ IH]; [done|]. by rewrite count_cons, Hx, IH.
Qed.

Lemma sorted_count_lt s :
  StronglySorted Z.le s ->
  forall (i : nat) (b : Z), s !! i = Some b -> (count (fun x => (x <? b)%Z) s <= i)%nat.
Proof.
  induction 1 as [|a s _ IH Hall]; intros i b Hi; [done|].
  rewrite count_cons. destruct i as [|i]; cbn in Hi.
  - injection Hi as ->. rewrite Z.ltb_irrefl, count_none; [done|].
    eapply Forall_impl; [exact Hall|]. intros x Hx. cbn in Hx. lia.
  - specialize (IH _ _ Hi). destruct (a <? b); lia.
Qed.

Lemma sorted_count_gt s :
  StronglySorted Z.le s ->
  forall (i : nat) (b : Z), s !! i = Some b ->
    (count (fun x => (b <? x)%Z) s + S i <= length s)%nat.
Proof.
  induction 1 as [|a s _ IH Hall]; intros i b Hi; [done|].
  rewrite count_cons. destruct i as [|i]; cbn in Hi.
  - injection Hi as ->. rewrite Z.ltb_irrefl. cbn.
    pose proof (count_le_length (fun x => (b <? x)%Z) s). lia.
  - specialize (IH _ _ Hi). cbn.
    assert (a <= b) as Hab.
    { rewrite Forall_forall in Hall. apply Hall.
      by eapply list_elem_of_lookup_2. }
    destruct (Z.ltb_spec b a); lia.
Qed.

Lemma sorted_lookup_le s :
  StronglySorted Z.le s ->
  forall i j x y, s !! i = Some x -> s !! j = Some y -> (i <= j)%nat -> x <= y.
Proof.
  induction 1 as [|a s _ IH Hall]; intros i j x y Hi Hj Hij; [done|].
  destruct i as [|i], j as [|j]; cbn in *; try lia.
  - injection Hi as ->. injection Hj as ->. lia.
  - injection Hi as ->. rewrite Forall_forall in Hall. apply Hall.
    by eapply list_elem_of_lookup_2.
  - eapply IH; eauto. lia.
Qed.

Lemma below_le m b a :
  (m <= inject_Z b)%Q -> (below m a <= count (fun x => (x <? b)%Z) a)%nat.
Proof.
  intros Hm. apply count_mono. intros x Hx.
  apply negb_true_iff in Hx. apply Z.ltb_lt.
  destruct (Z.lt_ge_cases x b) as [|Hge]; [done|].
  assert (Qle_bool m (inject_Z x) = true); [|congruence].
  apply Qle_bool_iff. eapply Qle_trans; [exact Hm|]. rewrite <- Zle_Qle. lia.
Qed.

Lemma above_le m b a :
  (inject_Z b <= m)%Q -> (above m a <= count (fun x => (b <? x)%Z) a)%nat.
Proof.
  intros Hm. apply count_mono. intros x Hx.
  apply negb_true_iff in Hx. apply Z.ltb_lt.
  destruct (Z.lt_ge_cases b x) as [|Hge]; [done|].
  assert (Qle_bool (inject_Z x) m = true); [|congruence].
  apply Qle_bool_iff. eapply Qle_trans; [|exact Hm]. rewrite <- Zle_Qle. lia.
Qed.

Lemma np_mean_1 x : (np_mean [x] == inject_Z x)%Q.
Proof.
  unfold np_mean. simpl. rewrite Z.add_0_r. unfold Qeq. simpl. lia.
Qed.

Lemma np_mean_2 x y : (np_mean [x; y] == (inject_Z x + inject_Z y) / 2)%Q.
Proof.
  unfold np_mean. simpl. rewrite Z.add_0_r. unfold Qeq. simpl. lia.
Qed.

Lemma slice_1 {A} (l : list A) i x :
  l !! i = Some x -> slice i (i + 1) l = [x].
Proof.
  intros Hi. unfold slice. replace (i + 1 - i)%nat with 1%nat by lia.
  by rewrite (drop_S _ _ _ Hi).
Qed.

Lemma slice_2 {A} (l : list A) i x y :
  l !! i = Some x -> l !! S i = Some y -> slice i (S i + 1) l = [x; y].
Proof.
  intros Hi Hj. unfold slice. replace (S i + 1 - i)%nat with 2%nat by lia.
  rewrite (drop_S _ _ _ Hi), (drop_S _ _ _ Hj). done.
Qed.

Lemma sorted_perm a : merge_sort Z.le a ≡ₚ a.
Proof. apply merge_sort_Permutation. Qed.

Lemma sorted_sorted a : StronglySorted Z.le (merge_sort Z.le a).
Proof. apply StronglySorted_merge_sort; apply _. Qed.

Lemma sorted_length a : length (merge_sort Z.le a) = length a.
Proof. by rewrite sorted_perm. Qed.

Lemma half_odd n : Nat.odd n = true -> n = (2 * (n / 2) + 1)%nat.
Proof.
  intros H. apply Nat.odd_spec in H. destruct H as [k ->].
  replace (2 * k + 1)%nat with (1 + k * 2)%nat by lia.
  rewrite Nat.div_add by lia. cbn. lia.
Qed.

Lemma half_even n : Nat.odd n = false -> n = (2 * (n / 2))%nat.
Proof.
  intros H. assert (Nat.even n = true) as He.
  { rewrite <- Nat.negb_odd, H. done. }
  apply Nat.even_spec in He. destruct He as [k ->].
  replace (2 * k)%nat with (0 + k * 2)%nat by lia.
  rewrite Nat.div_add by lia. cbn. lia.
Qed.

(** The value [np_median] returns, in terms of the sorted list. *)
Lemma np_median_odd a :
  Nat.odd (length a) = true ->
  exists x, merge_sort Z.le a !! (length a / 2)%nat = Some x /\
            np_median a = Some (np_mean [x]).
Proof.
  intros Hodd. pose proof (half_odd _ Hodd) as Hn.
  destruct (lookup_lt_is_Some_2 (merge_sort Z.le a) (length a / 2)%nat)
    as [x Hx]; [rewrite sorted_length; lia|].
  exists x. split; [done|]. unfold np_median.
  destruct (Nat.eqb_spec (length a) 0) as [H0|_]; [lia|].
  by rewrite Hodd, (slice_1 _ _ _ Hx).
Qed.

Lemma np_median_even a :
  a <> [] -> Nat.odd (length a) = false ->
  exists x y, merge_sort Z.le a !! (length a / 2 - 1)%nat = Some x /\
              merge_sort Z.le a !! (length a / 2)%nat = Some y /\
              np_median a = Some (np_mean [x; y]).
Proof.
  intros Hne Hodd. pose proof (half_even _ Hodd) as Hn.
  assert (length a <> 0%nat) as Hlen by (by destruct a).
  destruct (lookup_lt_is_Some_2 (merge_sort Z.le a) (length a / 2 - 1)%nat)
    as [x Hx]; [rewrite sorted_length; lia|].
  destruct (lookup_lt_is_Some_2 (merge_sort Z.le a) (length a / 2)%nat)
    as [y Hy]; [rewrite sorted_length; lia|].
  exists x, y. split; [done|]. split; [done|]. unfold np_median.
  destruct (Nat.eqb_spec (length a) 0) as [H0|_]; [lia|].
  rewrite Hodd. do 2 f_equal.
  replace (length a / 2 + 1)%nat with (S (length a / 2 - 1) + 1)%nat by lia.
  apply slice_2; [done|].
  by replace (S (length a / 2 - 1)) with (length a / 2)%nat by lia.
Qed.

Lemma np_median_middle a :
  a <> [] ->
  exists m m', np_median a = Some m /\ middle_median a = Some m' /\ (m == m')%Q.
Proof.
  intros Hne. unfold middle_median.
  destruct (Nat.odd (length a)) eqn:Hodd.
  - destruct (np_median_odd a Hodd) as (x & Hx & ->).
    exists (np_mean [x]), (inject_Z x). rewrite Hx.
    split; [done|]. split; [done|]. apply np_mean_1.
  - destruct (np_median_even a Hne Hodd) as (x & y & Hx & Hy & ->).
    rewrite Hx, Hy. eexists _, _. split; [done|]. split; [done|].
    apply np_mean_2.
Qed.

Lemma np_median_is_median a m : np_median a = Some m -> is_median a m.
Proof.
  intros Hm. assert (a <> []) as Hne.
  { intros ->. done. }
  pose proof (sorted_sorted a) as Hs. pose proof (sorted_perm a) as Hp.
  unfold is_median.
  destruct (Nat.odd (length a)) eqn:Hodd.
  - destruct (np_median_odd a Hodd) as (x & Hx & Hm').
    rewrite Hm in Hm'. injection Hm' as ->.
    pose proof (half_odd _ Hodd) as Hn.
    pose proof (sorted_count_lt _ Hs _ _ Hx) as Hlt.
    pose proof (sorted_count_gt _ Hs _ _ Hx) as Hgt.
    rewrite sorted_length in Hgt.
    rewrite (count_perm _ _ _ Hp) in Hlt. rewrite (count_perm _ _ _ Hp) in Hgt.
    assert (np_mean [x] <= inject_Z x)%Q as H1
      by (rewrite np_mean_1; apply Qle_refl).
    assert (inject_Z x <= np_mean [x])%Q as H2
      by (rewrite np_mean_1; apply Qle_refl).
    pose proof (below_le _ _ a H1) as Hb.
    pose proof (above_le _ _ a H2) as Ha. lia.
  - destruct (np_median_even a Hne Hodd) as (x & y & Hx & Hy & Hm').
    rewrite Hm in Hm'. injection Hm' as ->.
    pose proof (half_even _ Hodd) as Hn.
    assert (length a <> 0%nat) as Hlen by (by destruct a).
    assert (x <= y) as Hxy.
    { eapply (sorted_lookup_le _ Hs); [exact Hx|exact Hy|lia]. }
    pose proof (sorted_count_lt _ Hs _ _ Hy) as Hlt.
    pose proof (sorted_count_gt _ Hs _ _ Hx) as Hgt.
    rewrite sorted_length in Hgt.
    rewrite (count_perm _ _ _ Hp) in Hlt. rewrite (count_perm _ _ _ Hp) in Hgt.
    assert (np_mean [x; y] <= inject_Z y)%Q as H1.
    { rewrite np_mean_2. unfold Qle. simpl. lia. }
    assert (inject_Z x <= np_mean [x; y])%Q as H2.
    { rewrite np_mean_2. unfold Qle. simpl. lia. }
    pose proof (below_le _ _ a H1) as Hb.
    pose proof (above_le _ _ a H2) as Ha. lia.
Qed.

End PaceMedian.

Section PaceOutput.
Import Pace.

Lemma filter_absent i (stats : list video_stats) :
  i ∉ (fun v => vid (meta v)) <$> stats ->
  filter (fun v => vid (meta v) = i) stats = [].
Proof.
  induction stats as [|v stats IH]; [done|].
  rewrite fmap_cons, not_elem_of_cons. intros [Hne Hni].
  rewrite filter_cons_False by congruence. by apply IH.
Qed.

Lemma find_video_None stats p :
  find_video stats p = None <-> parent_id p ∉ (fun v => vid (meta v)) <$> stats.
Proof.
  unfold find_video. induction stats as [|v stats IH]; cbn.
  - split; [|done]. intros _ H. by apply elem_of_nil in H.
  - rewrite not_elem_of_cons.
    destruct (String.eqb_spec (vid (meta v)) (parent_id p)) as [Heq|Hne].
    + split; [done|]. intros [H _]. congruence.
    + rewrite IH. split; [|tauto]. intros H. split; [congruence|done].
Qed.

Lemma find_video_Some stats p v :
  find_video stats p = Some v -> v ∈ stats /\ vid (meta v) = parent_id p.
Proof.
  unfold find_video. intros H. apply find_some in H. destruct H as [Hin Heq].
  split; [by apply list_elem_of_In|]. by apply String.eqb_eq.
Qed.

Lemma join_row_unique stats p :
  NoDup ((fun v => vid (meta v)) <$> stats) ->
  join_row stats p = [Merged p (find_video stats p)].
Proof.
  unfold join_row, find_video.
  induction stats as [|v stats IH]; [done|].
  rewrite fmap_cons, NoDup_cons. intros [Hni Hnd]. cbn [List.find].
  destruct (String.eqb_spec (vid (meta v)) (parent_id p)) as [Heq|Hne].
  - rewrite filter_cons_True by done.
    rewrite filter_absent by (by rewrite <- Heq). done.
  - rewrite filter_cons_False by done. by apply IH.
Qed.

Lemma flat_map_join stats top_parent :
  NoDup ((fun v => vid (meta v)) <$> stats) ->
  flat_map (join_row stats) top_parent =
  (fun p => Merged p (find_video stats p)) <$> top_parent.
Proof.
  intros Hnd. induction top_parent as [|p ps IH]; [done|].
  cbn. by rewrite join_row_unique, IH.
Qed.

Lemma pd_merge_left_unique stats top_parent :
  NoDup ((fun v => vid (meta v)) <$> stats) -> top_parent <> [] ->
  pd_merge_left top_parent stats =
  inr ((fun p => Merged p (find_video stats p)) <$> top_parent).
Proof.
  intros Hnd Hne. unfold pd_merge_left.
  destruct top_parent; [done|]. by rewrite flat_map_join.
Qed.

Lemma aggregate_inr interrupted shots vm :
  aggregate interrupted shots = inr vm -> aggregates_of shots vm.
Proof.
  intros H. apply aggregate_from_inr in H. subst. apply aggregates_of_foldl.
Qed.

Lemma stats_ids vm stats :
  calculate_all vm = inr stats ->
  (fun v => vid (meta v)) <$> stats = vid <$> vm.
Proof.
  intros H. apply calculate_all_meta in H. subst.
  by rewrite <- list_fmap_compose.
Qed.

Lemma process_log_known merge interrupted source top_parent :
  Forall (fun st => status_msg st ∈ known_messages)
         (process merge interrupted source top_parent).1.
Proof.
  unfold process, known_messages.
  destruct (num_rows source =? 0).
  { cbn. repeat constructor. }
  destruct (aggregate _ _) as [e|vm].
  { cbn. repeat constructor. }
  destruct (calculate_all vm) as [e|stats].
  { cbn. repeat constructor. }
  unfold finish_stage. destruct stats as [|r stats]; [|destruct merge]; cbn.
  - repeat constructor.
  - constructor; [|constructor; [|constructor]].
    + apply list_elem_of_further, list_elem_of_here.
    + do 2 apply list_elem_of_further. apply list_elem_of_here.
  - constructor; [|constructor; [|constructor]].
    + apply list_elem_of_further, list_elem_of_here.
    + do 3 apply list_elem_of_further. apply list_elem_of_here.
Qed.

Lemma add_shot_last vm s v :
  v ∈ add_shot vm s -> vid v = url s ->
  last (shot_duration_list v) = Some (shot_duration s).
Proof.
  unfold add_shot. intros Hin Hid.
  assert (v ∈ map (append_duration (url s) (shot_duration s)) vm ->
          last (shot_duration_list v) = Some (shot_duration s)) as Hmap.
  { intros H. apply list_elem_of_fmap in H. destruct H as (v0 & -> & _).
    rewrite vid_append_duration in Hid. unfold append_duration.
    rewrite <- Hid, String.eqb_refl. cbn. apply last_snoc. }
  destruct (id_exist (url s) vm); [by apply Hmap|].
  apply elem_of_app in Hin. destruct Hin as [H|H]; [by apply Hmap|].
  apply list_elem_of_singleton in H. by subst.
Qed.

Lemma add_shot_has_id vm s : exists v, v ∈ add_shot vm s /\ vid v = url s.
Proof.
  unfold add_shot. destruct (id_exist (url s) vm) eqn:Hex.
  - apply id_exist_true in Hex.
    rewrite <- (vids_append_duration (url s) (shot_duration s)) in Hex.
    apply list_elem_of_fmap in Hex. destruct Hex as (v & Hv & Hin).
    by exists v.
  - eexists. split; [apply elem_of_app; right; apply list_elem_of_here|done].
Qed.

End PaceOutput.

Section PaceClaims.
Import Pace PaceExamples.

Lemma add_shot_nonempty vm s : add_shot vm s <> [].
Proof.
  destruct (add_shot_has_id vm s) as (v & Hin & _). intros H.
  rewrite H in Hin. by apply elem_of_nil in Hin.
Qed.

Lemma foldl_add_shot_nil shots : foldl add_shot [] shots = [] -> shots = [].
Proof.
  destruct shots as [|s shots _] using rev_ind; [done|].
  rewrite foldl_app. cbn. intros H. by apply add_shot_nonempty in H.
Qed.

Lemma aggregates_of_durations shots vm v :
  aggregates_of shots vm -> v ∈ vm -> shot_duration_list v <> [].
Proof.
  intros (_ & _ & Hall) Hin. rewrite Forall_forall in Hall.
  destruct (Hall _ Hin) as [(pre & s & post & -> & _ & Hs & _) ->].
  unfold durations_of. rewrite filter_app, filter_cons_True by done.
  by destruct (filter _ pre).
Qed.

(** C8.  For a shot stream read without interruption, the aggregator
    returns one aggregate per distinct video id of the stream; the frame
    rate, shot count and total duration of each aggregate are those of the
    first record with its id, and its duration list holds the durations of
    all records with its id, in stream order. *)
Theorem aggregator_groups_by_first_record interrupted shots :
  (forall k, (k < length shots)%nat -> interrupted k = false) ->
  exists video_metadata,
    aggregate interrupted shots = inr video_metadata /\
    length video_metadata = length (remove_dups (url <$> shots)) /\
    NoDup (vid <$> video_metadata) /\
    forall v, v ∈ video_metadata ->
      seeded_by shots v /\
      shot_duration_list v = durations_of (vid v) shots.
Proof.
  intros Hint. exists (foldl add_shot [] shots).
  assert (aggregate interrupted shots = inr (foldl add_shot [] shots)) as Hagg.
  { apply aggregate_from_not_interrupted. intros j Hj. apply Hint. lia. }
  split; [done|].
  destruct (aggregates_of_foldl shots) as (Hnd & Hids & Hall).
  split; [|split; [done|]].
  - rewrite <- (length_fmap vid). apply Permutation_length.
    apply NoDup_Permutation; [done|apply NoDup_remove_dups|].
    intros i. by rewrite Hids, elem_of_remove_dups.
  - intros v Hv. rewrite Forall_forall in Hall. by apply Hall.
Qed.

(** Four records of two videos give two aggregates. *)
Lemma aggregator_groups_by_first_record_witness :
  exists video_metadata,
    aggregate never (three_shots ++ [shot_of "b" 0 10 0 120])
      = inr video_metadata /\
    length video_metadata = 2%nat.
Proof.
  destruct (aggregator_groups_by_first_record never
              (three_shots ++ [shot_of "b" 0 10 0 120]))
    as (vm & Hagg & Hlen & _); [reflexivity|].
  exists vm. split; [exact Hagg|]. rewrite Hlen. vm_compute. reflexivity.
Defined.

(** A shot that ends before it starts is not skipped: after three regular
    shots of the same video its negative duration is the fourth entry of
    the duration list. *)
Lemma inverted_shot_not_skipped :
  end_time inverted_shot < start_time inverted_shot /\
  exists v, aggregate never (three_shots ++ [inverted_shot]) = inr [v] /\
            shot_duration inverted_shot ∈ shot_duration_list v /\
            length (shot_duration_list v) = 4%nat.
Proof.
  split; [reflexivity|]. eexists. split; [reflexivity|]. split; [|reflexivity].
  cbn. do 3 apply list_elem_of_further. apply list_elem_of_here.
Qed.

(** C3, as the code has it.  A shot whose end time precedes its start time
    is handled like any other: the loop goes on with the rest of the
    stream, the aggregate of its video exists afterwards and has the
    negative duration as the last entry of its list, and no run reports a
    status other than the four fixed messages, so no warning is emitted. *)
Theorem inverted_shot_appended interrupted k s rest video_metadata :
  end_time s < start_time s -> interrupted k = false ->
  shot_duration s < 0 /\
  aggregate_from interrupted k (s :: rest) video_metadata =
    aggregate_from interrupted (S k) rest (add_shot video_metadata s) /\
  (exists v, v ∈ add_shot video_metadata s /\ vid v = url s) /\
  (forall v, v ∈ add_shot video_metadata s -> vid v = url s ->
     last (shot_duration_list v) = Some (shot_duration s)) /\
  (forall merge source top_parent,
     Forall (fun st => status_msg st ∈ known_messages)
            (process merge interrupted source top_parent).1).
Proof.
  intros Hinv Hint. split; [unfold shot_duration; lia|].
  split; [cbn; by rewrite Hint|].
  split; [apply add_shot_has_id|].
  split; [intros v; apply add_shot_last|].
  intros merge source top_parent. apply process_log_known.
Qed.

(** The inverted shot adds minus five seconds to the list of its video. *)
Lemma inverted_shot_appended_witness :
  shot_duration inverted_shot < 0 /\
  exists v, v ∈ add_shot [three_shot_video] inverted_shot /\
            last (shot_duration_list v) = Some (seconds (-5)).
Proof.
  destruct (inverted_shot_appended never 0 inverted_shot [] [three_shot_video])
    as (Hneg & _ & (v & Hin & Hid) & Hlast & _); [reflexivity|reflexivity|].
  split; [exact Hneg|]. exists v. split; [exact Hin|].
  exact (Hlast v Hin Hid).
Defined.

(** A video with a scene count of zero, read after a regular video, ends
    the whole run with [ZeroDivisionError]: nothing is written, the regular
    video included. *)
Lemma zero_shot_count_aborts_run :
  process false never zero_count_source [] = ([started], Raise ZeroDivisionError)
  /\ forall rows,
       (process false never zero_count_source []).2
         <> WriteCsvItemsAndFinish rows.
Proof. split; [reflexivity|]. intros rows. discriminate. Qed.

(** C1, as the code has it.  When some aggregate has a shot count of zero
    or a total duration of zero, the division raises [ZeroDivisionError],
    which ends the run in either mode: no row of any video is written. *)
Theorem division_by_zero_aborts_run merge interrupted source top_parent
    video_metadata v :
  num_rows source <> 0 ->
  aggregate interrupted (items source) = inr video_metadata ->
  v ∈ video_metadata ->
  shot_count v = 0 \/ total_duration v = 0 ->
  process merge interrupted source top_parent
    = ([started], Raise ZeroDivisionError).
Proof.
  intros Hrows Hagg Hin Hz. unfold process.
  destruct (Z.eqb_spec (num_rows source) 0) as [|_]; [done|].
  by rewrite Hagg, (calculate_all_zero _ _ Hin Hz).
Qed.

(** The run over the two videos in merged mode. *)
Lemma division_by_zero_aborts_run_witness :
  process true never zero_count_source parents
    = ([started], Raise ZeroDivisionError).
Proof.
  eapply (division_by_zero_aborts_run true never zero_count_source parents _
            {| vid := "b"; frame_rate := "30"; shot_count := 0;
               total_duration := seconds 120;
               shot_duration_list := [seconds 10] |}).
  - vm_compute. discriminate.
  - reflexivity.
  - apply list_elem_of_further, list_elem_of_here.
  - left. reflexivity.
Defined.

(** A source dataset of zero rows ends the run with [finish(0)], a
    success with zero rows, and not with an error. *)
Lemma empty_source_finishes_with_zero_rows :
  process true never empty_source parents = ([no_videos], Finish 0) /\
  forall msg, (process true never empty_source parents).2 <> FinishWithError msg.
Proof. split; [reflexivity|]. intros msg. discriminate. Qed.

(** C4, as the code has it.  A source dataset that reports zero rows ends
    the run early with [finish(0)] and a final status; a source dataset
    that reports rows but yields no record ends it with the error of the
    output stage; and these are the only runs that reach the output stage
    without an aggregate. *)
Theorem no_aggregates_outcome merge interrupted source top_parent :
  (num_rows source = 0 ->
   process merge interrupted source top_parent = ([no_videos], Finish 0)) /\
  (num_rows source <> 0 -> items source = [] ->
   process merge interrupted source top_parent =
     ([started],
      FinishWithError "Unable to translate video metadata. Error encountered")) /\
  (forall video_metadata,
     num_rows source <> 0 ->
     aggregate interrupted (items source) = inr video_metadata ->
     calculate_all video_metadata = inr [] ->
     items source = []).
Proof.
  split; [|split].
  - intros H. unfold process. by rewrite H.
  - intros Hrows Hitems. unfold process.
    destruct (Z.eqb_spec (num_rows source) 0) as [|_]; [done|].
    by rewrite Hitems.
  - intros vm _ Hagg Hcalc.
    apply calculate_all_meta in Hcalc. cbn in Hcalc. subst vm.
    apply aggregate_from_inr in Hagg. symmetry in Hagg.
    by apply foldl_add_shot_nil in Hagg.
Qed.

(** A dataset that reports one row and yields none. *)
Lemma no_aggregates_outcome_witness :
  process false never unreadable_source [] =
    ([started],
     FinishWithError "Unable to translate video metadata. Error encountered").
Proof.
  apply (no_aggregates_outcome false never unreadable_source []).
  - vm_compute. discriminate.
  - reflexivity.
Defined.

(** C5.  For every aggregate the aggregator returns, with a positive shot
    count and a positive total duration, the statistics are computed
    without an exception: [asl] is the total duration in seconds divided by
    the shot count, [msl] is the median of the duration list (the middle
    element of the sorted list, or the mean of the two middle ones, and in
    either case a value with at most half of the list on each side), and
    [cuts_per_min] is the shot count less one divided by the total duration
    in minutes.  Durations of 10, 20 and 30 seconds in a video of 120
    seconds with 3 shots give 40, 20 seconds and 1. *)
Theorem statistics_of_finalized_aggregate :
  (forall interrupted shots video_metadata v,
     aggregate interrupted shots = inr video_metadata ->
     v ∈ video_metadata ->
     0 < shot_count v -> 0 < total_duration v ->
     exists r m m',
       calculate v = inr r /\ meta r = v /\
       (asl r == total_seconds (total_duration v) / inject_Z (shot_count v))%Q /\
       msl r = Some m /\
       middle_median (shot_duration_list v) = Some m' /\ (m == m')%Q /\
       is_median (shot_duration_list v) m /\
       (cuts_per_min r ==
          inject_Z (shot_count v - 1)
          / (total_seconds (total_duration v) / 60))%Q) /\
  (aggregate never three_shots = inr [three_shot_video] /\
   exists r m,
     calculate three_shot_video = inr r /\
     (asl r == 40)%Q /\
     msl r = Some m /\ (m == inject_Z (seconds 20))%Q /\
     (cuts_per_min r == 1)%Q).
Proof.
  split.
  - intros interrupted shots vm v Hagg Hin Hc Hd.
    pose proof (aggregates_of_durations _ _ _ (aggregate_inr _ _ _ Hagg) Hin)
      as Hne.
    destruct (np_median_middle _ Hne) as (m & m' & Hm & Hm' & Heq).
    eexists _, m, m'. rewrite calculate_nonzero by lia. cbn.
    split; [done|]. split; [done|]. split; [apply Qeq_refl|].
    split; [done|]. split; [done|]. split; [done|].
    split; [by apply np_median_is_median|apply Qeq_refl].
  - split; [reflexivity|].
    eexists _, _. split; [reflexivity|]. cbn. split; [reflexivity|].
    split; [reflexivity|]. split; reflexivity.
Qed.

(** The statistics of the video of the three shots. *)
Lemma statistics_of_finalized_aggregate_witness :
  exists r, calculate three_shot_video = inr r /\ meta r = three_shot_video.
Proof.
  destruct (proj1 statistics_of_finalized_aggregate never three_shots
              [three_shot_video] three_shot_video)
    as (r & m & m' & Hr & Hmeta & _).
  - reflexivity.
  - apply list_elem_of_here.
  - vm_compute. reflexivity.
  - vm_compute. reflexivity.
  - exists r. split; [exact Hr|exact Hmeta].
Defined.

(** C7.  When the output stage is reached with at least one aggregate: in
    merged mode the rows written are the rows of a non-empty parent table,
    in their order, each with the statistics of the video of its id, or
    with none when no aggregate has that id, so there are as many rows as
    parent rows; in standalone mode there is one row per aggregate.  (For a
    parent table without any row the merge has no key column and raises
    [KeyError]; nothing is written.) *)
Theorem merged_and_standalone_rows interrupted source top_parent
    video_metadata stats :
  num_rows source <> 0 ->
  aggregate interrupted (items source) = inr video_metadata ->
  calculate_all video_metadata = inr stats ->
  stats <> [] ->
  (top_parent <> [] ->
   exists rows,
     (process true interrupted source top_parent).2
       = WriteCsvItemsAndFinish rows /\
     rows = (fun p => Merged p (find_video stats p)) <$> top_parent /\
     length rows = length top_parent /\
     (forall p, find_video stats p = None <->
                parent_id p ∉ vid <$> video_metadata) /\
     (forall p v, find_video stats p = Some v ->
                  v ∈ stats /\ vid (meta v) = parent_id p)) /\
  (top_parent = [] ->
   (process true interrupted source top_parent).2 = Raise (KeyError "id")) /\
  (exists rows,
     (process false interrupted source top_parent).2
       = WriteCsvItemsAndFinish rows /\
     rows = Standalone <$> stats /\
     length rows = length video_metadata).
Proof.
  intros Hrows Hagg Hcalc Hne.
  pose proof (aggregate_inr _ _ _ Hagg) as (Hnd & _ & _).
  pose proof (stats_ids _ _ Hcalc) as Hids.
  unfold process.
  destruct (Z.eqb_spec (num_rows source) 0) as [|_]; [done|].
  rewrite Hagg, Hcalc. unfold finish_stage.
  destruct stats as [|r stats]; [done|]. split; [|split].
  - intros Hpar.
    rewrite pd_merge_left_unique by (by rewrite ?Hids). cbn [snd].
    eexists. split; [done|]. split; [done|].
    split; [by rewrite length_fmap|]. split.
    + intros p. by rewrite find_video_None, Hids.
    + intros p v. apply find_video_Some.
  - by intros ->.
  - cbn [snd]. eexists. split; [done|]. split; [done|].
    rewrite length_fmap, <- (length_fmap vid video_metadata), <- Hids.
    by rewrite length_fmap.
Qed.

(** Three parent rows, one of them the video of the three shots, give
    three rows. *)
Lemma merged_and_standalone_rows_witness :
  exists rows,
    (process true never three_shot_source parents).2
      = WriteCsvItemsAndFinish rows /\
    length rows = 3%nat.
Proof.
  edestruct (merged_and_standalone_rows never three_shot_source parents)
    as ((rows & Hrows & _ & Hlen & _) & _).
  - vm_compute. discriminate.
  - reflexivity.
  - reflexivity.
  - discriminate.
  - discriminate.
  - exists rows. split; [exact Hrows|exact Hlen].
Defined.

End PaceClaims.

Section VlmMatching.
Import Vlm.

Context (column_name : string) (respond : nat -> archive_file -> response).

Lemma match_scene_first prediction file_name pre scene_dict scene_id post :
  Forall (other_target file_name) pre ->
  scene_dict !! "id" = Some scene_id ->
  target_id scene_id = file_name ->
  match_scene column_name prediction file_name (pre ++ scene_dict :: post)
    = Matched (pre ++ <[column_name := prediction]> scene_dict :: post).
Proof.
  intros Hpre Hid Htarget.
  induction Hpre as [|d pre (i & Hi & Hne) _ IH]; cbn.
  - rewrite Hid. apply String.eqb_eq in Htarget. by rewrite Htarget.
  - rewrite Hi. apply String.eqb_neq in Hne. by rewrite Hne, IH.
Qed.

Lemma match_scene_none prediction file_name scene_list :
  Forall (other_target file_name) scene_list ->
  match_scene column_name prediction file_name scene_list = NoMatch.
Proof.
  induction 1 as [|d l (i & Hi & Hne) _ IH]; cbn; [done|].
  rewrite Hi. apply String.eqb_neq in Hne. by rewrite Hne, IH.
Qed.

Lemma match_scene_length prediction file_name scene_list :
  forall scene_list',
    match_scene column_name prediction file_name scene_list
      = Matched scene_list' ->
    length scene_list' = length scene_list.
Proof.
  induction scene_list as [|d l IH]; cbn; intros l'; [done|].
  destruct (d !! "id"); [|done]. destruct (String.eqb _ _).
  - by intros [= <-].
  - destruct (match_scene _ _ _ l); [|done..].
    intros [= <-]. cbn. f_equal. by apply IH.
Qed.

Lemma annotate_length answer f scene_list :
  length (annotate column_name answer f scene_list).2 = length scene_list.
Proof.
  unfold annotate. destruct answer as [content|e]; [|done].
  destruct (match_scene _ _ _ _) eqn:Hm; [|done..].
  by apply match_scene_length in Hm.
Qed.

Lemma annotate_progress answer f scene_list :
  progress_values (annotate column_name answer f scene_list).1 = [].
Proof.
  unfold annotate. destruct answer as [content|e]; [|done].
  by destruct (match_scene _ _ _ _).
Qed.

(** What one pass of the loop body reports and leaves behind. *)
Lemma handle_progress f st log r :
  handle column_name respond f st = (log, r) ->
  (progress_values log = [] /\
   forall st', r = inr st' ->
     scene_count st' = scene_count st /\
     length (scene_list st') = length (scene_list st)) \/
  (image_file f = true /\ length (scene_list st) <> 0%nat /\
   progress_values log
     = [ratio (length (scene_list st)) (S (scene_count st))] /\
   exists st', r = inr st' /\ scene_count st' = S (scene_count st) /\
               length (scene_list st') = length (scene_list st)).
Proof.
  unfold handle, image_file. cbn.
  destruct (String.eqb (name f) ".metadata.json").
  { destruct (valid_json f); intros [= <- <-]; left; split; try done.
    by intros st' [= <-]. }
  destruct (image_suffix _); cbn.
  2:{ intros [= <- <-]; left; split; try done. by intros st' [= <-]. }
  destruct (Nat.eqb_spec (length (scene_list st)) 0) as [H0|Hn].
  { intros [= <- <-]. left. split; done. }
  destruct (annotate _ _ _ _) as [alog l'] eqn:Ha.
  intros [= <- <-]. right. split; [done|]. split; [done|].
  pose proof (annotate_progress (respond (S (scene_count st)) f) f
                (scene_list st)) as Hp.
  pose proof (annotate_length (respond (S (scene_count st)) f) f
                (scene_list st)) as Hl.
  rewrite Ha in Hp, Hl. cbn in Hp, Hl. split.
  - cbn. by rewrite Hp.
  - eexists. split; [done|]. cbn. done.
Qed.

Lemma progress_values_app l1 l2 :
  progress_values (l1 ++ l2) = progress_values l1 ++ progress_values l2.
Proof. apply omap_app. Qed.

(** The progress values of the loop are the ratios of consecutive counts. *)
Lemma loop_progress iterator :
  forall st log r,
    loop column_name respond iterator st = (log, r) ->
    exists m,
      progress_values log
        = ratio (length (scene_list st)) <$> seq (S (scene_count st)) m /\
      (m <= length iterator)%nat /\
      (m <> 0%nat -> length (scene_list st) <> 0%nat) /\
      forall st', r = inr st' ->
        scene_count st' = (scene_count st + m)%nat /\
        length (scene_list st') = length (scene_list st).
Proof.
  induction iterator as [|ev rest IH]; intros st log r; cbn.
  { intros [= <- <-]. exists 0%nat. split; [done|]. split; [done|].
    split; [done|]. intros st' [= <-]. split; [lia|done]. }
  destruct (match ev with
            | Yield f => ([], Some f)
            | ReadError e => ([Printed ("Error reading file: " +:+ e)],
                              file_path st)
            end) as [printed current] eqn:Hev.
  assert (progress_values printed = []) as Hprinted.
  { destruct ev; by injection Hev as <- _. }
  destruct current as [f|].
  2:{ intros [= <- <-]. exists 0%nat. rewrite Hprinted.
      split; [done|]. split; [lia|]. split; done. }
  destruct (handle column_name respond f st) as [hlog hr] eqn:Hh.
  apply handle_progress in Hh.
  destruct hr as [e|st1].
  { intros [= <- <-]. rewrite progress_values_app, Hprinted. cbn.
    destruct Hh as [[Hp _]|(_ & _ & _ & st' & Hst' & _)]; [|done].
    exists 0%nat. rewrite Hp. split; [done|]. split; [lia|]. split; done. }
  destruct (loop column_name respond rest st1) as [log' r'] eqn:Hloop.
  intros [= <- <-]. apply IH in Hloop.
  destruct Hloop as (m & Hp' & Hm & Hn & Hfin).
  rewrite !progress_values_app, Hprinted, Hp'. cbn [app].
  destruct Hh as [[Hp Hst]|(_ & Hlen & Hp & st' & Hst' & Hc & Hl)].
  - destruct (Hst _ eq_refl) as [Hc Hl]. rewrite Hp, Hc, Hl. cbn [app].
    exists m. split; [done|]. split; [lia|]. split; [by rewrite <- Hl|].
    intros st' Hr. destruct (Hfin _ Hr) as [Hc' Hl']. split; lia.
  - injection Hst' as <-. rewrite Hp, Hc, Hl. exists (S m). cbn.
    split; [done|]. split; [lia|]. split; [done|].
    intros st' Hr. destruct (Hfin _ Hr) as [Hc' Hl']. split; lia.
Qed.

(** Without read errors, only image entries are counted. *)
Lemma loop_progress_files files :
  forall st log r,
    loop column_name respond (Yield <$> files) st = (log, r) ->
    (length (progress_values log) <= length (List.filter image_file files))%nat.
Proof.
  induction files as [|f files IH]; intros st log r; cbn.
  { by intros [= <- <-]. }
  destruct (handle column_name respond f st) as [hlog hr] eqn:Hh.
  apply handle_progress in Hh.
  destruct hr as [e|st1].
  { intros [= <- <-]. cbn.
    destruct Hh as [[Hp _]|(_ & _ & _ & st' & Hst' & _)]; [|done].
    rewrite Hp. cbn. lia. }
  destruct (loop column_name respond (Yield <$> files) st1) as [log' r'] eqn:Hloop.
  intros [= <- <-]. apply IH in Hloop. cbn [app].
  rewrite progress_values_app, length_app.
  destruct Hh as [[Hp _]|(Himg & _ & Hp & _)]; rewrite Hp; cbn.
  - destruct (image_file f); cbn; lia.
  - rewrite Himg. cbn. lia.
Qed.

Lemma loop_app pre post :
  forall st,
    loop column_name respond (pre ++ post) st =
    match loop column_name respond pre st with
    | (log, inl e) => (log, inl e)
    | (log, inr st') =>
        let '(log', r) := loop column_name respond post st' in
        (log ++ log', r)
    end.
Proof.
  induction pre as [|ev pre IH]; intros st; cbn.
  { by destruct (loop column_name respond post st). }
  destruct (match ev with
            | Yield f => ([], Some f)
            | ReadError e => ([Printed ("Error reading file: " +:+ e)],
                              file_path st)
            end) as [printed current].
  destruct current as [f|]; [|done].
  destruct (handle column_name respond f st) as [hlog [e|st1]]; [done|].
  rewrite IH.
  destruct (loop column_name respond pre st1) as [log1 [e|st2]]; [done|].
  destruct (loop column_name respond post st2) as [log2 r].
  by rewrite !app_assoc.
Qed.

Lemma ratio_pos n k : n <> 0%nat -> k <> 0%nat -> (0 < ratio n k)%Q.
Proof.
  intros Hn Hk. unfold ratio. apply Qlt_shift_div_l.
  - rewrite <- (Zlt_Qlt 0). lia.
  - rewrite Qmult_0_l, <- (Zlt_Qlt 0). lia.
Qed.

Lemma ratio_le_1 n k : n <> 0%nat -> (k <= n)%nat -> (ratio n k <= 1)%Q.
Proof.
  intros Hn Hk. unfold ratio. apply Qle_shift_div_r.
  - rewrite <- (Zlt_Qlt 0). lia.
  - rewrite Qmult_1_l, <- Zle_Qle. lia.
Qed.

Lemma ratio_gt_1 n k : n <> 0%nat -> (n < k)%nat -> (1 < ratio n k)%Q.
Proof.
  intros Hn Hk. unfold ratio. apply Qlt_shift_div_l.
  - rewrite <- (Zlt_Qlt 0). lia.
  - rewrite Qmult_1_l, <- Zlt_Qlt. lia.
Qed.

End VlmMatching.

Section VlmClaims.
Import Vlm VlmExamples.

Lemma rfind_dot_cons c s :
  rfind_dot (String c s) = None ->
  c <> Ascii.ascii_of_nat 46 /\ rfind_dot s = None.
Proof.
  cbn [rfind_dot]. destruct (rfind_dot s); [done|].
  destruct (Ascii.eqb_spec c (Ascii.ascii_of_nat 46)); [done|]. done.
Qed.

Lemma remove_from_other a pat c s :
  a <> c ->
  remove_from (String a pat) 0 (String c s)
    = String c (remove_from (String a pat) 0 s).
Proof.
  intros Hne. cbn [remove_from String.prefix].
  by destruct (Ascii.ascii_dec a c).
Qed.

Lemma remove_from_no_dot s :
  rfind_dot s = None -> remove_from ".mp4" 0 s = s.
Proof.
  induction s as [|c s IH]; [done|]. intros H.
  apply rfind_dot_cons in H. destruct H as [Hc Hs].
  rewrite remove_from_other by (intros <-; by apply Hc).
  by rewrite IH.
Qed.

Lemma cleaned_id_strips a b :
  rfind_dot a = None -> rfind_dot b = None ->
  cleaned_id (a +:+ ".mp4" +:+ b) = a +:+ b.
Proof.
  intros Ha Hb. unfold cleaned_id.
  induction a as [|c a IH].
  - transitivity (remove_from ".mp4" 0 b); [by destruct b|].
    by apply remove_from_no_dot.
  - apply rfind_dot_cons in Ha. destruct Ha as [Hc Ha].
    change (String c a +:+ ".mp4" +:+ b) with (String c (a +:+ ".mp4" +:+ b)).
    rewrite remove_from_other by (intros <-; by apply Hc).
    change (String c a +:+ b) with (String c (a +:+ b)).
    f_equal. by apply IH.
Qed.

Lemma handle_image column_name respond f st :
  image_file f = true -> scene_list st <> [] ->
  handle column_name respond f st =
    let k := S (scene_count st) in
    let '(log, scene_list') :=
      annotate column_name (respond k f) f (scene_list st) in
    (UpdateStatus (name f +:+ " read by VLM (" +:+ pretty k +:+ "/"
                   +:+ pretty (length (scene_list st)) +:+ ")")
     :: UpdateProgress (ratio (length (scene_list st)) k) :: log,
     inr {| file_path := Some f; scene_count := k;
            scene_list := scene_list' |}).
Proof.
  unfold image_file, handle. intros Himg Hne.
  apply andb_true_iff in Himg. destruct Himg as [Hmeta Hsfx].
  apply negb_true_iff in Hmeta. rewrite Hmeta, Hsfx. cbn.
  destruct (Nat.eqb_spec (length (scene_list st)) 0) as [H0|_]; [|done].
  by destruct (scene_list st).
Qed.

Lemma loop_yield column_name respond f rest st log st' :
  handle column_name respond f st = (log, inr st') ->
  loop column_name respond (Yield f :: rest) st =
    let '(log', r) := loop column_name respond rest st' in (log ++ log', r).
Proof. intros H. cbn. by rewrite H. Qed.

(** C6.  For an image entry whose prediction was obtained: the target of a record is its id with [.mp4] removed
    and [.jpeg] appended, compared with the name of the entry.  The first
    record whose target is that name gets the output column set to the
    prediction, the records before and after it are left as they were, and
    no other status is reported; when none of the records has that target,
    they are left as they were and the status "No match found" is
    reported.  In both cases the loop goes on with the rest of the
    archive. *)
Theorem image_entry_matching column_name respond f st rest content :
  image_file f = true ->
  respond (S (scene_count st)) f = Prediction content ->
  let k := S (scene_count st) in
  let reported := predicted_log f k (length (scene_list st)) content in
  let next scenes :=
    {| file_path := Some f; scene_count := k; scene_list := scenes |} in
  (forall pre scene_dict scene_id post,
     scene_list st = pre ++ scene_dict :: post ->
     Forall (other_target (name f)) pre ->
     scene_dict !! "id" = Some scene_id ->
     target_id scene_id = name f ->
     let scenes := pre ++ <[column_name := content]> scene_dict :: post in
     handle column_name respond f st = (reported, inr (next scenes)) /\
     loop column_name respond (Yield f :: rest) st =
       (reported ++ (loop column_name respond rest (next scenes)).1,
        (loop column_name respond rest (next scenes)).2)) /\
  (scene_list st <> [] ->
   Forall (other_target (name f)) (scene_list st) ->
   let no_match := UpdateStatus ("No match found for " +:+ name f) in
   handle column_name respond f st
     = (reported ++ [no_match], inr (next (scene_list st))) /\
   loop column_name respond (Yield f :: rest) st =
     ((reported ++ [no_match])
        ++ (loop column_name respond rest (next (scene_list st))).1,
      (loop column_name respond rest (next (scene_list st))).2)) /\
  (forall a b, rfind_dot a = None -> rfind_dot b = None ->
     target_id (a +:+ ".mp4" +:+ b) = (a +:+ b) +:+ ".jpeg").
Proof.
  intros Himg Hresp k reported next.
  assert (scene_list st <> [] ->
          handle column_name respond f st =
          (let '(log, scene_list') :=
             annotate column_name (Prediction content) f (scene_list st) in
           (UpdateStatus (name f +:+ " read by VLM (" +:+ pretty k +:+ "/"
                          +:+ pretty (length (scene_list st)) +:+ ")")
            :: UpdateProgress (ratio (length (scene_list st)) k) :: log,
            inr (next scene_list')))) as Himage.
  { intros Hne. rewrite <- Hresp. by apply handle_image. }
  unfold annotate in Himage.
  split; [|split].
  - intros pre d i post Hlist Hpre Hid Htarget scenes.
    assert (scene_list st <> []) as Hne by (rewrite Hlist; by destruct pre).
    specialize (Himage Hne). rename Himage into Hh.
    assert (match_scene column_name content (name f) (scene_list st)
            = Matched scenes) as Hm.
    { rewrite Hlist. by apply match_scene_first with i. }
    rewrite Hm in Hh.
    split; [exact Hh|].
    rewrite (loop_yield _ _ _ _ _ _ _ Hh).
    by destruct (loop column_name respond rest _).
  - intros Hne Hall no_match.
    specialize (Himage Hne). rename Himage into Hh.
    rewrite (match_scene_none _ _ _ _ Hall) in Hh.
    split; [exact Hh|].
    rewrite (loop_yield _ _ _ _ _ _ _ Hh).
    by destruct (loop column_name respond rest _).
  - intros a b Ha Hb. unfold target_id. by rewrite cleaned_id_strips.
Qed.

(** The image of the second scene annotates the second record only; an
    image of an unknown video annotates none. *)
Lemma image_entry_matching_witness :
  (handle "annotation" says_cat image_2 (start_of [scene_1; scene_2])).2
    = inr {| file_path := Some image_2; scene_count := 1;
             scene_list := [scene_1; <["annotation" := "cat"]> scene_2] |} /\
  (handle "annotation" says_cat image_unknown (start_of [scene_1; scene_2])).2
    = inr {| file_path := Some image_unknown; scene_count := 1;
             scene_list := [scene_1; scene_2] |}.
Proof.
  split.
  - destruct (image_entry_matching "annotation" says_cat image_2
                (start_of [scene_1; scene_2]) [] "cat")
      as (Hmatch & _ & _); [reflexivity|reflexivity|].
    destruct (Hmatch [scene_1] scene_2 "123.mp4_scene_2" []) as [Hh _].
    + reflexivity.
    + constructor; [|constructor]. exists "123.mp4_scene_1".
      split; [reflexivity|]. vm_compute. discriminate.
    + reflexivity.
    + reflexivity.
    + rewrite Hh. reflexivity.
  - destruct (image_entry_matching "annotation" says_cat image_unknown
                (start_of [scene_1; scene_2]) [] "cat")
      as (_ & Hnone & _); [reflexivity|reflexivity|].
    destruct Hnone as [Hh _].
    + discriminate.
    + constructor; [|constructor; [|constructor]].
      * exists "123.mp4_scene_1". split; [reflexivity|].
        vm_compute. discriminate.
      * exists "123.mp4_scene_2". split; [reflexivity|].
        vm_compute. discriminate.
    + rewrite Hh. reflexivity.
Defined.

Lemma process_log column_name respond genealogy_list archive scene_dataset :
  find_scene_dataset genealogy_list = Some scene_dataset ->
  (process column_name respond genealogy_list archive).1 =
  (loop column_name respond archive
     {| file_path := None; scene_count := 0;
        scene_list := dataset_items scene_dataset |}).1.
Proof.
  intros Hfind. unfold process. rewrite Hfind.
  destruct (loop _ _ _ _) as [log [e|st]]; [done|].
  by destruct (scene_list st).
Qed.

(** With one scene record and two images in the archive, the second
    progress value is 2. *)
Lemma progress_exceeds_one :
  exists q,
    UpdateProgress q
      ∈ (process "annotation" says_cat (genealogy [scene_1])
           [Yield image_1; Yield image_2]).1 /\
    ~ (0 <= q /\ q <= 1)%Q.
Proof.
  exists (ratio 1 2). split.
  - apply (list_elem_of_lookup_2 _ 5). vm_compute. reflexivity.
  - intros [_ H]. vm_compute in H. by apply H.
Qed.

(** C9, as the code has it.  The progress values of a run are [1/n],
    [2/n], ..., [m/n], where [n] is the number of scene records and [m] the
    number of images handed to the model, at most the number of image
    entries of an archive read without error.  All of them are positive;
    all of them are at most 1 when [m <= n], and one of them exceeds 1
    when [n < m]. *)
Theorem progress_values_of_run column_name respond genealogy_list archive
    scene_dataset :
  find_scene_dataset genealogy_list = Some scene_dataset ->
  let n := length (dataset_items scene_dataset) in
  let reported :=
    progress_values (process column_name respond genealogy_list archive).1 in
  exists m,
    reported = ratio n <$> seq 1 m /\
    (m <= length archive)%nat /\
    (forall files, archive = Yield <$> files ->
                   (m <= length (List.filter image_file files))%nat) /\
    Forall (fun q => 0 < q)%Q reported /\
    ((m <= n)%nat -> Forall (fun q => q <= 1)%Q reported) /\
    ((n < m)%nat -> Exists (fun q => 1 < q)%Q reported).
Proof.
  intros Hfind n reported. unfold reported.
  rewrite (process_log _ _ _ _ _ Hfind).
  destruct (loop _ _ _ _) as [log r] eqn:Hloop. cbn [fst].
  pose proof (loop_progress _ _ _ _ _ _ Hloop) as (m & Hp & Hm & Hn & _).
  cbn [scene_count scene_list] in Hp, Hn. fold n in Hp, Hn.
  exists m. split; [done|]. split; [done|]. split; [|split; [|split]].
  - intros files ->. apply loop_progress_files in Hloop.
    by rewrite Hp, length_fmap, length_seq in Hloop.
  - rewrite Hp. apply Forall_fmap, Forall_forall. intros k Hk.
    apply elem_of_seq in Hk. cbn. apply ratio_pos; [apply Hn|]; lia.
  - intros Hmn. rewrite Hp. apply Forall_fmap, Forall_forall. intros k Hk.
    apply elem_of_seq in Hk. cbn. apply ratio_le_1; [apply Hn|]; lia.
  - intros Hnm. rewrite Hp. apply Exists_exists. exists (ratio n m).
    split.
    + apply list_elem_of_fmap. exists m. split; [done|].
      apply elem_of_seq. lia.
    + apply ratio_gt_1; [apply Hn|]; lia.
Qed.

(** Two scene records and two images: the values are within (0, 1]. *)
Lemma progress_values_of_run_witness :
  Forall (fun q => 0 < q /\ q <= 1)%Q
    (progress_values
       (process "annotation" says_cat (genealogy [scene_1; scene_2])
          [Yield image_1; Yield image_2]).1).
Proof.
  destruct (progress_values_of_run "annotation" says_cat
              (genealogy [scene_1; scene_2]) [Yield image_1; Yield image_2]
              {| type := "video-scene-detector";
                 dataset_items := [scene_1; scene_2] |})
    as (m & _ & Hm & _ & Hpos & Hle & _); [reflexivity|].
  cbn in Hm. specialize (Hle Hm).
  apply Forall_and. split; [exact Hpos|exact Hle].
Defined.

Lemma handle_failure column_name respond f st :
  (forall k g, exists e, respond k g = Failure e) ->
  (name f = ".metadata.json" -> valid_json f = true) ->
  scene_list st <> [] ->
  exists log st',
    handle column_name respond f st = (log, inr st') /\
    scene_list st' = scene_list st.
Proof.
  intros Hfail Hvalid Hne. unfold handle. cbn.
  destruct (String.eqb_spec (name f) ".metadata.json") as [Hmeta|_].
  { rewrite (Hvalid Hmeta). by eexists _, _. }
  destruct (image_suffix _); cbn; [|by eexists _, _].
  destruct (Nat.eqb_spec (length (scene_list st)) 0) as [H0|_].
  { by destruct (scene_list st). }
  destruct (Hfail (S (scene_count st)) f) as [e ->]. cbn.
  by eexists _, _.
Qed.

Lemma loop_failures column_name respond files :
  (forall k g, exists e, respond k g = Failure e) ->
  Forall (fun g => name g = ".metadata.json" -> valid_json g = true) files ->
  forall st, scene_list st <> [] ->
    exists log st',
      loop column_name respond (Yield <$> files) st = (log, inr st') /\
      scene_list st' = scene_list st.
Proof.
  intros Hfail. induction 1 as [|f files Hf _ IH]; intros st Hne; cbn.
  { by eexists _, _. }
  destruct (handle_failure column_name respond f st Hfail Hf Hne)
    as (log & st1 & -> & Hst1).
  destruct (IH st1) as (log' & st' & -> & Hst'); [by rewrite Hst1|].
  eexists _, _. split; [done|]. congruence.
Qed.

(** C10.  When the scene metadata was found and the archive holds a
    metadata entry whose content is not valid JSON, the run ends with an
    exception and writes nothing; the exception is [JSONDecodeError] when
    the entries before the metadata entry are handled without one.
    Failures of the inference call are caught instead: a run in which every
    call fails, over an archive without such an entry, writes the scene
    list. *)
Theorem malformed_metadata_aborts_run column_name respond genealogy_list
    scene_dataset pre f post :
  find_scene_dataset genealogy_list = Some scene_dataset ->
  name f = ".metadata.json" ->
  valid_json f = false ->
  let start := {| file_path := None; scene_count := 0;
                  scene_list := dataset_items scene_dataset |} in
  (exists e, (process column_name respond genealogy_list
                (pre ++ Yield f :: post)).2 = Raise e) /\
  (forall log st,
     loop column_name respond pre start = (log, inr st) ->
     process column_name respond genealogy_list (pre ++ Yield f :: post)
       = (log, Raise JSONDecodeError)) /\
  (forall files,
     (forall k g, exists e, respond k g = Failure e) ->
     Forall (fun g => name g = ".metadata.json" -> valid_json g = true) files ->
     dataset_items scene_dataset <> [] ->
     (process column_name respond genealogy_list (Yield <$> files)).2
       = WriteCsvItemsAndFinish (dataset_items scene_dataset)).
Proof.
  intros Hfind Hname Hjson start.
  assert (forall st, handle column_name respond f st = ([], inl JSONDecodeError))
    as Hh.
  { intros st. unfold handle. cbn. by rewrite Hname, Hjson. }
  assert (forall log st,
            loop column_name respond pre start = (log, inr st) ->
            process column_name respond genealogy_list (pre ++ Yield f :: post)
              = (log, Raise JSONDecodeError)) as Hreach.
  { intros log st Hpre. unfold process. rewrite Hfind. fold start.
    rewrite loop_app, Hpre. cbn. rewrite Hh. cbn. by rewrite app_nil_r. }
  split; [|split; [exact Hreach|]].
  - destruct (loop column_name respond pre start) as [log [e|st]] eqn:Hpre.
    + exists e. unfold process. rewrite Hfind. fold start.
      by rewrite loop_app, Hpre.
    + exists JSONDecodeError. by rewrite (Hreach log st eq_refl).
  - intros files Hfail Hfiles Hne. unfold process. rewrite Hfind. fold start.
    destruct (loop_failures column_name respond files Hfail Hfiles start Hne)
      as (log & st' & -> & Hst').
    rewrite Hst'. cbn. by destruct (dataset_items scene_dataset).
Qed.

(** A malformed metadata entry read first. *)
Lemma malformed_metadata_aborts_run_witness :
  process "annotation" says_cat (genealogy [scene_1; scene_2])
    [Yield bad_metadata; Yield image_1]
  = ([], Raise JSONDecodeError).
Proof.
  destruct (malformed_metadata_aborts_run "annotation" says_cat
              (genealogy [scene_1; scene_2])
              {| type := "video-scene-detector";
                 dataset_items := [scene_1; scene_2] |}
              [] bad_metadata [Yield image_1])
    as (_ & Hreach & _); [reflexivity|reflexivity|reflexivity|].
  apply (Hreach [] (start_of [scene_1; scene_2])). reflexivity.
Defined.

(** C2, at an archive without any entry.  With two scene records the run
    writes them, unannotated; the error "No files found in archive" is
    reported when there is no scene record. *)
Theorem empty_archive_writes_scene_list :
  process "annotation" says_cat (genealogy [scene_1; scene_2]) []
    = ([], WriteCsvItemsAndFinish [scene_1; scene_2]) /\
  process "annotation" says_cat (genealogy []) []
    = ([], FinishWithError "No files found in archive").
Proof. split; reflexivity. Qed.

End VlmClaims.

(** * Further properties of the two processors *)

Section PaceStream.
Import Pace PaceExamples.

Lemma aggregate_from_interrupted interrupted shots :
  forall k vm j,
    (k <= j < k + length shots)%nat -> interrupted j = true ->
    aggregate_from interrupted k shots vm =
      inl (ProcessorInterruptedException
             "Interrupted while detecting video scenes").
Proof.
  induction shots as [|s shots IH]; intros k vm j Hj Hint; cbn in *; [lia|].
  destruct (interrupted k) eqn:Hk; [done|].
  apply (IH _ _ j); [|done].
  destruct (decide (j = k)) as [->|]; [congruence|lia].
Qed.

(** X1.  An interruption observed before some record of the stream is
    handled ends the run with [ProcessorInterruptedException]: only the
    first status was reported and nothing is written, in either mode. *)
Theorem interruption_discards_everything merge interrupted source top_parent
    k :
  num_rows source <> 0 ->
  (k < length (items source))%nat ->
  interrupted k = true ->
  process merge interrupted source top_parent =
    ([started],
     Raise (ProcessorInterruptedException
              "Interrupted while detecting video scenes")).
Proof.
  intros Hrows Hk Hint. unfold process.
  destruct (Z.eqb_spec (num_rows source) 0) as [|_]; [done|].
  unfold aggregate.
  by rewrite (aggregate_from_interrupted _ _ 0%nat [] k) by (done || lia).
Qed.

Lemma interruption_discards_everything_witness :
  process true (fun k => Nat.eqb k 2) three_shot_source parents =
    ([started],
     Raise (ProcessorInterruptedException
              "Interrupted while detecting video scenes")).
Proof.
  apply (interruption_discards_everything true (fun k => Nat.eqb k 2)
           three_shot_source parents 2).
  - vm_compute. discriminate.
  - vm_compute. lia.
  - reflexivity.
Defined.

Lemma add_shot_ids vm s :
  vid <$> add_shot vm s =
  if bool_decide (url s ∈ vid <$> vm) then vid <$> vm
  else (vid <$> vm) ++ [url s].
Proof.
  unfold add_shot. destruct (id_exist (url s) vm) eqn:Hex.
  - apply id_exist_true in Hex. rewrite bool_decide_eq_true_2 by done.
    apply vids_append_duration.
  - apply id_exist_false in Hex. rewrite bool_decide_eq_false_2 by done.
    by rewrite fmap_app, vids_append_duration.
Qed.

Lemma ids_first_occurrence shots :
  vid <$> foldl add_shot [] shots
    = reverse (remove_dups (reverse (url <$> shots))).
Proof.
  induction shots as [|s shots IH] using rev_ind; [done|].
  rewrite foldl_app. cbn [foldl]. rewrite add_shot_ids, IH.
  rewrite fmap_app, reverse_app. cbn [fmap list_fmap reverse app].
  change (reverse [url s]) with [url s]. cbn [app remove_dups].
  destruct (decide_rel elem_of (url s) (reverse (url <$> shots))) as [Hin|Hni].
  - rewrite bool_decide_eq_true_2; [done|].
    by rewrite elem_of_reverse, elem_of_remove_dups.
  - rewrite bool_decide_eq_false_2.
    + by rewrite reverse_cons.
    + by rewrite elem_of_reverse, elem_of_remove_dups.
Qed.

(** X2.  The aggregates come in the order in which their ids first appear in
    the stream. *)
Theorem aggregates_in_order_of_first_appearance interrupted shots :
  (forall k, (k < length shots)%nat -> interrupted k = false) ->
  exists video_metadata,
    aggregate interrupted shots = inr video_metadata /\
    vid <$> video_metadata
      = reverse (remove_dups (reverse (url <$> shots))).
Proof.
  intros Hint. exists (foldl add_shot [] shots). split.
  - apply aggregate_from_not_interrupted. intros j Hj. apply Hint. lia.
  - apply ids_first_occurrence.
Qed.

Lemma aggregates_in_order_of_first_appearance_witness :
  exists video_metadata,
    aggregate never
      (shot_of "b" 0 5 2 60 :: three_shots ++ [shot_of "b" 5 9 2 60])
      = inr video_metadata /\
    vid <$> video_metadata = ["b"; "a"].
Proof.
  destruct (aggregates_in_order_of_first_appearance never
              (shot_of "b" 0 5 2 60 :: three_shots ++ [shot_of "b" 5 9 2 60]))
    as (vm & Hagg & Hids); [reflexivity|].
  exists vm. split; [exact Hagg|]. rewrite Hids. vm_compute. reflexivity.
Defined.

Lemma append_duration_absent i d vm :
  i ∉ vid <$> vm -> map (append_duration i d) vm = vm.
Proof.
  induction vm as [|v vm IH]; [done|].
  rewrite fmap_cons, not_elem_of_cons. intros [Hne Hni]. cbn.
  rewrite IH by done. unfold append_duration.
  destruct (String.eqb_spec (vid v) i); [congruence|done].
Qed.

Lemma total_durations_append i d vm :
  NoDup (vid <$> vm) -> i ∈ vid <$> vm ->
  total_durations (map (append_duration i d) vm) = S (total_durations vm).
Proof.
  unfold total_durations.
  induction vm as [|v vm IH]; cbn; intros Hnd Hin.
  { by apply elem_of_nil in Hin. }
  apply NoDup_cons in Hnd. destruct Hnd as [Hni Hnd].
  unfold append_duration at 1.
  destruct (String.eqb_spec (vid v) i) as [Heq|Hne].
  - cbn. rewrite length_app. cbn.
    rewrite append_duration_absent by congruence. lia.
  - apply elem_of_cons in Hin. destruct Hin as [|Hin]; [congruence|].
    rewrite IH by done. lia.
Qed.

Lemma total_durations_add_shot vm s :
  NoDup (vid <$> vm) ->
  total_durations (add_shot vm s) = S (total_durations vm).
Proof.
  intros Hnd. unfold add_shot. destruct (id_exist (url s) vm) eqn:Hex.
  - apply id_exist_true in Hex. by apply total_durations_append.
  - apply id_exist_false in Hex. rewrite append_duration_absent by done.
    unfold total_durations. rewrite sum_list_with_app. cbn. lia.
Qed.

(** X3.  Every record of the stream adds exactly one duration: together the
    aggregates hold as many durations as the stream has records. *)
Theorem every_record_counted_once interrupted shots :
  (forall k, (k < length shots)%nat -> interrupted k = false) ->
  exists video_metadata,
    aggregate interrupted shots = inr video_metadata /\
    total_durations video_metadata = length shots.
Proof.
  intros Hint. exists (foldl add_shot [] shots). split.
  { apply aggregate_from_not_interrupted. intros j Hj. apply Hint. lia. }
  induction shots as [|s shots IH] using rev_ind; [done|].
  rewrite foldl_app, length_app. cbn [foldl length].
  rewrite total_durations_add_shot.
  - rewrite IH; [lia|]. intros k Hk. apply Hint. rewrite length_app. lia.
  - by destruct (aggregates_of_foldl shots) as (Hnd & _).
Qed.

Lemma every_record_counted_once_witness :
  exists video_metadata,
    aggregate never (three_shots ++ [shot_of "b" 0 10 0 120])
      = inr video_metadata /\
    total_durations video_metadata = 4%nat.
Proof.
  destruct (every_record_counted_once never
              (three_shots ++ [shot_of "b" 0 10 0 120]))
    as (vm & Hagg & Htotal); [reflexivity|].
  exists vm. split; [exact Hagg|exact Htotal].
Defined.

End PaceStream.

Section PaceRun.
Import Pace PaceExamples.

Lemma filter_append_duration i j d vm :
  filter (fun v => vid v = i) (map (append_duration j d) vm)
    = map (append_duration j d) (filter (fun v => vid v = i) vm).
Proof.
  induction vm as [|v vm IH]; [done|]. cbn [map].
  destruct (decide (vid v = i)) as [Heq|Hne].
  - rewrite !filter_cons_True by (by rewrite ?vid_append_duration).
    cbn. by rewrite IH.
  - by rewrite !filter_cons_False by (by rewrite ?vid_append_duration).
Qed.

Lemma id_exist_filter i vm :
  id_exist i (filter (fun v => vid v = i) vm) = id_exist i vm.
Proof.
  unfold id_exist. induction vm as [|v vm IH]; [done|].
  destruct (decide (vid v = i)) as [Heq|Hne].
  - rewrite filter_cons_True by done. cbn. by rewrite IH.
  - rewrite filter_cons_False by done. cbn. rewrite IH.
    by destruct (String.eqb_spec (vid v) i).
Qed.

Lemma append_duration_other i j d vm :
  i <> j ->
  map (append_duration j d) (filter (fun v => vid v = i) vm)
    = filter (fun v => vid v = i) vm.
Proof.
  intros Hne. apply append_duration_absent. intros Hin.
  apply list_elem_of_fmap in Hin. destruct Hin as (v & Hv & Hin).
  apply list_elem_of_filter in Hin. destruct Hin as [Hi _]. congruence.
Qed.

Lemma filter_add_shot i vm s :
  filter (fun v => vid v = i) (add_shot vm s) =
  if decide (url s = i) then add_shot (filter (fun v => vid v = i) vm) s
  else filter (fun v => vid v = i) vm.
Proof.
  unfold add_shot. destruct (decide (url s = i)) as [Heq|Hne].
  - rewrite Heq, id_exist_filter. destruct (id_exist i vm).
    + apply filter_append_duration.
    + rewrite filter_app, filter_append_duration.
      by rewrite filter_cons_True by done.
  - destruct (id_exist (url s) vm).
    + rewrite filter_append_duration. by apply append_duration_other.
    + rewrite filter_app, filter_append_duration.
      rewrite filter_cons_False by done. rewrite app_nil_r.
      by apply append_duration_other.
Qed.

(** X4.  The aggregate of a video does not depend on the records of other
    videos: aggregating the records of one id alone gives the aggregate
    this id has in the aggregation of the whole stream. *)
Theorem aggregate_of_one_video shots i :
  exists video_metadata,
    aggregate (fun _ => false) shots = inr video_metadata /\
    aggregate (fun _ => false) (filter (fun s => url s = i) shots)
      = inr (filter (fun v => vid v = i) video_metadata).
Proof.
  exists (foldl add_shot [] shots). split.
  { by apply aggregate_from_not_interrupted. }
  unfold aggregate. rewrite aggregate_from_not_interrupted by done. f_equal.
  induction shots as [|s shots IH] using rev_ind; [done|].
  rewrite filter_app, !foldl_app. cbn [foldl]. rewrite filter_add_shot.
  destruct (decide (url s = i)) as [Heq|Hne].
  - rewrite filter_cons_True by done. rewrite filter_nil. cbn [foldl].
    by rewrite IH.
  - rewrite filter_cons_False by done. by rewrite filter_nil.
Qed.

Lemma first_occurrence_unique {A} (P : A -> Prop) pre1 x1 post1 pre2 x2 post2 :
  pre1 ++ x1 :: post1 = pre2 ++ x2 :: post2 ->
  Forall (fun x => ~ P x) pre1 -> P x1 ->
  Forall (fun x => ~ P x) pre2 -> P x2 ->
  x1 = x2.
Proof.
  revert pre2. induction pre1 as [|y pre1 IH]; intros pre2 Heq H1 Hx1 H2 Hx2.
  - destruct pre2 as [|z pre2]; cbn in Heq; [congruence|].
    injection Heq as -> _. apply Forall_cons in H2. by destruct H2.
  - destruct pre2 as [|z pre2]; cbn in Heq.
    + injection Heq as -> _. apply Forall_cons in H1. by destruct H1.
    + injection Heq as -> Heq. apply Forall_cons in H1, H2.
      destruct H1, H2. by eapply IH.
Qed.

Lemma aggregates_nonzero shots vm :
  aggregates_of shots vm ->
  (Forall (fun v => shot_count v <> 0 /\ total_duration v <> 0) vm <->
   forall s, first_record shots s ->
             num_scenes_detected s <> 0 /\ total_video_duration s <> 0).
Proof.
  intros (Hnd & Hids & Hall). rewrite Forall_forall in Hall. split.
  - intros Hnz s (pre & post & Hshots & Hpre).
    assert (url s ∈ vid <$> vm) as Hin.
    { apply Hids. rewrite Hshots, fmap_app, fmap_cons.
      apply elem_of_app. right. apply list_elem_of_here. }
    apply list_elem_of_fmap in Hin. destruct Hin as (v & Hv & Hin).
    destruct (Hall _ Hin) as [(pre' & s' & post' & Hshots' & Hpre' & Hs' & _ & Hc & Hd) _].
    assert (s = s') as <-.
    { eapply (first_occurrence_unique (fun x => url x = url s)).
      - rewrite <- Hshots. exact Hshots'.
      - exact Hpre.
      - done.
      - eapply Forall_impl; [exact Hpre'|]. cbn. intros x Hx. congruence.
      - congruence. }
    rewrite Forall_forall in Hnz. destruct (Hnz _ Hin). by rewrite <- Hc, <- Hd.
  - intros Hfirst. apply Forall_forall. intros v Hin.
    destruct (Hall _ Hin) as [(pre & s & post & Hshots & Hpre & Hs & _ & Hc & Hd) _].
    rewrite Hc, Hd. apply Hfirst. exists pre, post. split; [done|].
    eapply Forall_impl; [exact Hpre|]. cbn. intros x Hx. congruence.
Qed.

Lemma calculate_all_inr_nonzero vm stats :
  calculate_all vm = inr stats ->
  Forall (fun v => shot_count v <> 0 /\ total_duration v <> 0) vm.
Proof.
  intros Hcalc. apply Forall_forall. intros v Hin.
  destruct (decide (shot_count v = 0)) as [Hc|Hc].
  { rewrite (calculate_all_zero vm v Hin) in Hcalc by (by left). done. }
  destruct (decide (total_duration v = 0)) as [Hd|Hd].
  { rewrite (calculate_all_zero vm v Hin) in Hcalc by (by right). done. }
  done.
Qed.

Lemma aggregate_inr_not_interrupted interrupted shots vm :
  aggregate interrupted shots = inr vm ->
  forall k, (k < length shots)%nat -> interrupted k = false.
Proof.
  intros Hagg k Hk. destruct (interrupted k) eqn:Hint; [|done].
  unfold aggregate in Hagg.
  by rewrite (aggregate_from_interrupted _ _ 0%nat [] k) in Hagg
    by (done || lia).
Qed.

(** X5.  When a run writes rows: exactly when the source reports rows and
    yields at least one record, no interruption is observed during the
    stream, the first record of every video has a scene count and a total
    duration other than zero, and, in merged mode, the parent table has a
    row. *)
Theorem process_writes_iff merge interrupted source top_parent :
  (exists rows,
     (process merge interrupted source top_parent).2
       = WriteCsvItemsAndFinish rows) <->
  num_rows source <> 0 /\
  items source <> [] /\
  (forall k, (k < length (items source))%nat -> interrupted k = false) /\
  (forall s, first_record (items source) s ->
             num_scenes_detected s <> 0 /\ total_video_duration s <> 0) /\
  (merge = true -> top_parent <> []).
Proof.
  unfold process. split.
  - intros [rows Hrows].
    destruct (Z.eqb_spec (num_rows source) 0) as [|Hn]; [done|].
    destruct (aggregate interrupted (items source)) as [e|vm] eqn:Hagg; [done|].
    destruct (calculate_all vm) as [e|stats] eqn:Hcalc; [done|].
    pose proof (aggregate_inr _ _ _ Hagg) as Hof.
    split; [done|]. split; [|split; [|split]].
    + intros Hitems. rewrite Hitems in Hagg. injection Hagg as <-.
      cbn in Hcalc. injection Hcalc as <-. done.
    + by eapply aggregate_inr_not_interrupted.
    + apply (aggregates_nonzero _ _ Hof).
      by eapply calculate_all_inr_nonzero.
    + intros -> ->. unfold finish_stage in Hrows.
      by destruct stats.
  - intros (Hn & Hitems & Hint & Hfirst & Hpar).
    destruct (Z.eqb_spec (num_rows source) 0) as [|_]; [done|].
    unfold aggregate. rewrite aggregate_from_not_interrupted
      by (intros j Hj; apply Hint; lia).
    pose proof (aggregates_of_foldl (items source)) as Hof.
    apply (aggregates_nonzero _ _ Hof) in Hfirst.
    destruct (calculate_all_nonzero _ Hfirst) as [stats Hcalc].
    rewrite Hcalc. unfold finish_stage.
    destruct stats as [|r stats].
    { apply calculate_all_meta in Hcalc. cbn in Hcalc. symmetry in Hcalc.
      by apply foldl_add_shot_nil in Hcalc. }
    destruct merge; cbn; [|by eexists].
    unfold pd_merge_left. destruct top_parent; [by destruct Hpar|].
    by eexists.
Qed.

Lemma process_writes_iff_witness :
  exists rows,
    (process true never three_shot_source parents).2
      = WriteCsvItemsAndFinish rows.
Proof.
  apply (proj2 (process_writes_iff true never three_shot_source parents)).
  split; [vm_compute; discriminate|]. split; [discriminate|].
  split; [reflexivity|]. split; [|discriminate].
  intros s (pre & post & Hshots & Hpre).
  destruct pre as [|s1 pre]; [injection Hshots as <- _; split; discriminate|].
  injection Hshots as <- Hshots. exfalso.
  apply Forall_cons in Hpre. destruct Hpre as [Hne Hpre].
  destruct pre as [|s2 pre]; [injection Hshots as <- _; by apply Hne|].
  injection Hshots as <- Hshots.
  destruct pre as [|s3 pre]; [injection Hshots as <- _; by apply Hne|].
  injection Hshots as <- Hshots. by destruct pre.
Defined.

End PaceRun.

Section PaceMedianMore.
Import Pace PaceExamples.

Lemma merge_sort_permutation a a' :
  a ≡ₚ a' -> merge_sort Z.le a = merge_sort Z.le a'.
Proof.
  intros Hp. apply (Sorted_unique Z.le).
  - apply Sorted_merge_sort; apply _.
  - apply Sorted_merge_sort; apply _.
  - by rewrite !merge_sort_Permutation.
Qed.

(** X6.  The median does not depend on the order in which the shots of a video
    arrive: lists that are permutations of each other have the same
    [np_median]. *)
Theorem np_median_permutation a a' :
  a ≡ₚ a' -> np_median a = np_median a'.
Proof.
  intros Hp. unfold np_median.
  by rewrite (merge_sort_permutation _ _ Hp), (Permutation_length Hp).
Qed.

Lemma np_median_permutation_witness :
  np_median [seconds 30; seconds 10; seconds 20]
    = np_median [seconds 10; seconds 20; seconds 30].
Proof.
  apply np_median_permutation.
  apply (Permutation_cons_app [seconds 10; seconds 20] []). reflexivity.
Defined.

Lemma sorted_elem_of a i x :
  merge_sort Z.le a !! i = Some x -> x ∈ a.
Proof.
  intros Hx. rewrite <- (sorted_perm a). by eapply list_elem_of_lookup_2.
Qed.

(** X7.  The median lies within the range of the durations: when every
    duration of a non-empty list is between [lo] and [hi], [np_median] has
    a value and it is between [lo] and [hi]. *)
Theorem np_median_within_range a lo hi :
  a <> [] ->
  Forall (fun z => lo <= z <= hi) a ->
  exists m, np_median a = Some m /\
            (inject_Z lo <= m)%Q /\ (m <= inject_Z hi)%Q.
Proof.
  intros Hne Hall. rewrite Forall_forall in Hall.
  destruct (Nat.odd (length a)) eqn:Hodd.
  - destruct (np_median_odd a Hodd) as (x & Hx & ->).
    apply sorted_elem_of, Hall in Hx.
    eexists. split; [done|]. rewrite np_mean_1, <- !Zle_Qle. lia.
  - destruct (np_median_even a Hne Hodd) as (x & y & Hx & Hy & ->).
    apply sorted_elem_of, Hall in Hx. apply sorted_elem_of, Hall in Hy.
    eexists. split; [done|]. rewrite np_mean_2.
    unfold Qle. simpl. lia.
Qed.

Lemma np_median_within_range_witness :
  exists m, np_median [seconds 30; seconds 10; seconds 20; seconds 10]
              = Some m /\
            (inject_Z (seconds 10) <= m)%Q /\ (m <= inject_Z (seconds 30))%Q.
Proof.
  apply np_median_within_range.
  - discriminate.
  - repeat constructor; vm_compute; discriminate.
Defined.

End PaceMedianMore.

Section VlmRows.
Import Vlm VlmExamples.

Context (column_name : string) (respond : nat -> archive_file -> response).

Lemma annotated_refl l : Forall2 (annotated column_name respond) l l.
Proof. induction l; constructor; [by left|done]. Qed.

Lemma annotated_trans d1 d2 d3 :
  annotated column_name respond d1 d2 ->
  annotated column_name respond d2 d3 ->
  annotated column_name respond d1 d3.
Proof.
  intros [->|(k & f & p & Hp & ->)] [->|(k' & f' & p' & Hp' & ->)].
  - by left.
  - right. by exists k', f', p'.
  - right. by exists k, f, p.
  - right. exists k', f', p'. split; [done|]. apply insert_insert_eq.
Qed.

Lemma match_scene_annotated k f content file_name l :
  respond k f = Prediction content ->
  forall l',
    match_scene column_name content file_name l = Matched l' ->
    Forall2 (annotated column_name respond) l l'.
Proof.
  intros Hp. induction l as [|d l IH]; intros l'; cbn; [done|].
  destruct (d !! "id"); [|done]. destruct (String.eqb _ _).
  - intros [= <-]. constructor; [|apply annotated_refl].
    right. by exists k, f, content.
  - destruct (match_scene _ _ _ l); [|done..].
    intros [= <-]. constructor; [by left|by apply IH].
Qed.

Lemma annotate_annotated k f l :
  Forall2 (annotated column_name respond) l
          (annotate column_name (respond k f) f l).2.
Proof.
  unfold annotate. destruct (respond k f) as [content|e] eqn:Hp.
  - destruct (match_scene _ _ _ _) eqn:Hm; cbn; try apply annotated_refl.
    by eapply match_scene_annotated.
  - apply annotated_refl.
Qed.

Lemma handle_annotated f st log st' :
  handle column_name respond f st = (log, inr st') ->
  Forall2 (annotated column_name respond) (scene_list st) (scene_list st').
Proof.
  unfold handle. cbn.
  destruct (String.eqb _ _).
  { destruct (valid_json f); [|done]. intros [= _ <-]. apply annotated_refl. }
  destruct (image_suffix _); cbn.
  2:{ intros [= _ <-]. apply annotated_refl. }
  destruct (Nat.eqb _ _); [done|].
  pose proof (annotate_annotated (S (scene_count st)) f (scene_list st)) as Ha.
  destruct (annotate _ _ _ _) as [alog l']. by intros [= _ <-].
Qed.

Lemma loop_annotated iterator :
  forall st log st',
    loop column_name respond iterator st = (log, inr st') ->
    Forall2 (annotated column_name respond) (scene_list st) (scene_list st').
Proof.
  induction iterator as [|ev rest IH]; intros st log st'; cbn.
  { intros [= _ <-]. apply annotated_refl. }
  destruct (match ev with
            | Yield f => ([], Some f)
            | ReadError e => ([Printed ("Error reading file: " +:+ e)],
                              file_path st)
            end) as [printed [f|]]; [|done].
  destruct (handle column_name respond f st) as [hlog [e|st1]] eqn:Hh; [done|].
  destruct (loop column_name respond rest st1) as [log' r'] eqn:Hloop.
  intros [= _ ->].
  eapply Forall2_trans; [apply annotated_trans| |by eapply IH].
  by eapply handle_annotated.
Qed.

(** X9.  The rows a run writes are the scene records, as many and in the same
    order: each row is its record unchanged, or its record with the output
    column set to a prediction the model server gave; any other column of a
    row has the value it has in the record. *)
Theorem rows_are_annotated_records genealogy_list archive scene_dataset rows :
  find_scene_dataset genealogy_list = Some scene_dataset ->
  (process column_name respond genealogy_list archive).2
    = WriteCsvItemsAndFinish rows ->
  Forall2 (annotated column_name respond) (dataset_items scene_dataset) rows /\
  length rows = length (dataset_items scene_dataset) /\
  forall (i : nat) scene_dict row key,
    dataset_items scene_dataset !! i = Some scene_dict ->
    rows !! i = Some row ->
    key <> column_name ->
    row !! key = scene_dict !! key.
Proof.
  intros Hfind. unfold process. rewrite Hfind.
  destruct (loop _ _ _ _) as [log [e|st]] eqn:Hloop; [done|].
  apply loop_annotated in Hloop. cbn [scene_list] in Hloop.
  destruct (scene_list st) as [|r l] eqn:Hl; [done|].
  intros [= <-]. split; [done|]. split.
  { symmetry. by eapply Forall2_length. }
  intros i d row key Hd Hrow Hkey.
  destruct (Forall2_lookup_lr _ _ _ _ _ _ Hloop Hd Hrow)
    as [->|(k & f & p & _ & ->)]; [done|].
  by rewrite lookup_insert_ne.
Qed.

End VlmRows.

Section VlmRun.
Import Vlm VlmExamples.

Lemma rows_are_annotated_records_witness :
  Forall2 (annotated "annotation" says_cat)
    [scene_1; scene_2] [scene_1; <["annotation" := "cat"]> scene_2].
Proof.
  destruct (rows_are_annotated_records "annotation" says_cat
              (genealogy [scene_1; scene_2])
              [Yield image_2; Yield image_unknown]
              {| type := "video-scene-detector";
                 dataset_items := [scene_1; scene_2] |}
              [scene_1; <["annotation" := "cat"]> scene_2])
    as (Hall & _); [reflexivity|vm_compute; reflexivity|exact Hall].
Defined.

End VlmRun.

Section VlmRunMore.
Import Vlm VlmExamples.

Lemma find_scene_dataset_None genealogy_list :
  find_scene_dataset genealogy_list = None <->
  Forall (fun d => type d <> "video-scene-detector") genealogy_list.
Proof.
  unfold find_scene_dataset.
  induction genealogy_list as [|d l IH]; cbn.
  - split; [constructor|done].
  - destruct (String.eqb_spec (type d) "video-scene-detector") as [Heq|Hne].
    + split; [done|]. intros H. apply Forall_cons in H. by destruct H.
    + rewrite IH. split; [by constructor|].
      intros H. apply Forall_cons in H. by destruct H.
Qed.

(** X10.  A run fails with "No video scene metadata found" exactly when no
    dataset of the genealogy is a scene detector; it then makes no call at
    all, whatever the archive holds. *)
Theorem no_scene_metadata_iff column_name respond genealogy_list archive :
  ((process column_name respond genealogy_list archive).2
     = FinishWithError "No video scene metadata found" <->
   Forall (fun d => type d <> "video-scene-detector") genealogy_list) /\
  (Forall (fun d => type d <> "video-scene-detector") genealogy_list ->
   (process column_name respond genealogy_list archive).1 = []).
Proof.
  rewrite <- find_scene_dataset_None. unfold process.
  destruct (find_scene_dataset genealogy_list) as [d|]; [|done].
  split; [|done]. split; [|done].
  destruct (loop _ _ _ _) as [log [e|st]]; [done|].
  by destruct (scene_list st).
Qed.

Lemma no_scene_metadata_iff_witness :
  (process "annotation" says_cat
     [ {| type := "video-scene-frames"; dataset_items := [scene_1] |} ]
     [Yield bad_metadata]).1 = [].
Proof.
  apply (no_scene_metadata_iff "annotation" says_cat
           [ {| type := "video-scene-frames"; dataset_items := [scene_1] |} ]
           [Yield bad_metadata]).
  constructor; [vm_compute; discriminate|constructor].
Defined.

Lemma is_compatible_with_types module_type :
  is_compatible_with module_type = true <->
  module_type = "video-scene-frames" \/
  module_type = "preset-scene-timelines" \/
  module_type = "vlm-annotate-scenes".
Proof.
  unfold is_compatible_with. cbn. rewrite orb_false_r.
  rewrite !orb_true_iff, !String.eqb_eq. tauto.
Qed.

(** X11.  The compatibility check does not secure what [process] needs: none of
    the module types it accepts is the scene detector, so a genealogy made
    of accepted modules only fails for want of scene metadata; and the one
    module type that this check and the check of the pace processor both
    accept is [preset-scene-timelines]. *)
Theorem compatible_modules_lack_scene_metadata :
  (forall column_name respond genealogy_list archive,
     Forall (fun d => is_compatible_with (type d) = true) genealogy_list ->
     process column_name respond genealogy_list archive
       = ([], FinishWithError "No video scene metadata found")) /\
  (forall module_type,
     (is_compatible_with module_type = true /\
      Pace.is_compatible_with module_type = true) <->
     module_type = "preset-scene-timelines").
Proof.
  split.
  - intros column_name respond genealogy_list archive Hall.
    assert (find_scene_dataset genealogy_list = None) as Hfind.
    { apply find_scene_dataset_None. eapply Forall_impl; [exact Hall|].
      intros d Hd. cbn in Hd. apply is_compatible_with_types in Hd.
      destruct Hd as [Hd|[Hd|Hd]]; rewrite Hd; discriminate. }
    unfold process. by rewrite Hfind.
  - intros t. rewrite is_compatible_with_types.
    unfold Pace.is_compatible_with. cbn. rewrite orb_false_r.
    rewrite !orb_true_iff, !String.eqb_eq. split.
    + intros [[ -> | [ -> | -> ]] [H|H]]; done.
    + intros ->. tauto.
Qed.

Lemma compatible_modules_lack_scene_metadata_witness :
  process "annotation" says_cat
    [ {| type := "video-scene-frames"; dataset_items := [scene_1] |};
      {| type := "vlm-annotate-scenes"; dataset_items := [scene_1] |} ]
    [Yield image_1]
  = ([], FinishWithError "No video scene metadata found").
Proof.
  apply (proj1 compatible_modules_lack_scene_metadata).
  repeat constructor.
Defined.

End VlmRunMore.

Section VlmEdges.
Import Vlm VlmExamples MoreExamples.

Lemma handle_skipped column_name respond f st :
  image_file f = false -> valid_metadata f ->
  handle column_name respond f st =
    ([], inr {| file_path := Some f; scene_count := scene_count st;
                scene_list := scene_list st |}).
Proof.
  unfold image_file, valid_metadata, handle. intros Himg Hvalid. cbn.
  destruct (String.eqb_spec (name f) ".metadata.json") as [Hmeta|_].
  - by rewrite (Hvalid Hmeta).
  - cbn in Himg. by rewrite Himg.
Qed.

Lemma handle_image_empty column_name respond f st :
  image_file f = true -> scene_list st = [] ->
  exists log, handle column_name respond f st = (log, inl ZeroDivisionError).
Proof.
  unfold image_file, handle. intros Himg Hnil.
  apply andb_true_iff in Himg. destruct Himg as [Hmeta Hsfx].
  apply negb_true_iff in Hmeta. rewrite Hmeta, Hsfx. cbn.
  rewrite Hnil. cbn. by eexists.
Qed.

Lemma loop_empty_scene_list column_name respond files :
  Forall valid_metadata files ->
  forall st, scene_list st = [] ->
    exists log,
      outcome (loop column_name respond (Yield <$> files) st) =
      (log,
       if existsb image_file files then inl ZeroDivisionError
       else inr (scene_count st, [])).
Proof.
  induction 1 as [|f files Hf _ IH]; intros st Hnil; cbn.
  { exists []. unfold outcome. cbn. by rewrite Hnil. }
  destruct (image_file f) eqn:Himg.
  - destruct (handle_image_empty column_name respond f st Himg Hnil)
      as [log ->]. by exists log.
  - rewrite (handle_skipped _ _ _ _ Himg Hf). cbn.
    destruct (IH {| file_path := Some f; scene_count := scene_count st;
                    scene_list := scene_list st |} Hnil) as [log Hlog].
    destruct (loop _ _ _ _) as [log' r]. exists log.
    unfold outcome in *. cbn in *. done.
Qed.

(** X12.  With no scene record at all a run never writes anything: it ends with
    [ZeroDivisionError] at the first image entry, at the progress update,
    and with "No files found in archive" when the archive has no image
    entry (for an archive read without error whose metadata entry is
    valid). *)
Theorem empty_scene_list_never_writes column_name respond genealogy_list
    scene_dataset :
  find_scene_dataset genealogy_list = Some scene_dataset ->
  dataset_items scene_dataset = [] ->
  (forall archive rows,
     (process column_name respond genealogy_list archive).2
       <> WriteCsvItemsAndFinish rows) /\
  (forall files,
     Forall valid_metadata files ->
     (process column_name respond genealogy_list (Yield <$> files)).2 =
       if existsb image_file files then Raise ZeroDivisionError
       else FinishWithError "No files found in archive").
Proof.
  intros Hfind Hnil. split.
  - intros archive rows. unfold process. rewrite Hfind.
    destruct (loop _ _ _ _) as [log [e|st]] eqn:Hloop; [done|].
    apply loop_progress in Hloop. destruct Hloop as (m & _ & _ & _ & Hfin).
    destruct (Hfin st eq_refl) as [_ Hlen]. cbn in Hlen.
    rewrite Hnil in Hlen. by destruct (scene_list st).
  - intros files Hvalid. unfold process. rewrite Hfind.
    destruct (loop_empty_scene_list column_name respond files Hvalid
                {| file_path := None; scene_count := 0;
                   scene_list := dataset_items scene_dataset |} Hnil)
      as [log Hlog].
    destruct (loop _ _ _ _) as [log' [e|st]]; unfold outcome in Hlog;
      cbn in Hlog; destruct (existsb image_file files); try done.
    + by injection Hlog as _ ->.
    + injection Hlog as _ _ Hst. by rewrite Hst.
Qed.

Lemma empty_scene_list_never_writes_witness :
  (process "annotation" says_cat (genealogy [])
     (Yield <$> [good_metadata; image_1])).2
  = Raise ZeroDivisionError.
Proof.
  apply (empty_scene_list_never_writes "annotation" says_cat (genealogy [])
           {| type := "video-scene-detector"; dataset_items := [] |}).
  - reflexivity.
  - reflexivity.
  - constructor; [intros _; reflexivity|].
    constructor; [intros H; discriminate H|constructor].
Defined.

End VlmEdges.

Section VlmArchive.
Import Vlm VlmExamples MoreExamples.

Lemma process_outcome column_name respond genealogy_list archive :
  process column_name respond genealogy_list archive =
  match find_scene_dataset genealogy_list with
  | None => ([], FinishWithError "No video scene metadata found")
  | Some scene_dataset =>
      match outcome (loop column_name respond archive
                       {| file_path := None; scene_count := 0;
                          scene_list := dataset_items scene_dataset |}) with
      | (log, inl e) => (log, Raise e)
      | (log, inr (_, [])) => (log, FinishWithError "No files found in archive")
      | (log, inr (_, rows)) => (log, WriteCsvItemsAndFinish rows)
      end
  end.
Proof.
  unfold process, outcome.
  destruct (find_scene_dataset genealogy_list); [|done].
  destruct (loop _ _ _ _) as [log [e|st]]; [done|]. cbn.
  by destruct (scene_list st).
Qed.

Lemma outcome_continue log (r : list call * (exception + loop_state)) :
  outcome (let '(log', x) := r in (log ++ log', x)) =
  (log ++ (outcome r).1, (outcome r).2).
Proof. by destruct r as [log' [e|st]]. Qed.

Lemma loop_yield_path column_name respond files p st :
  outcome (loop column_name respond (Yield <$> files)
             {| file_path := p; scene_count := scene_count st;
                scene_list := scene_list st |}) =
  outcome (loop column_name respond (Yield <$> files) st).
Proof. by destruct files. Qed.

Lemma loop_skip column_name respond f rest st :
  image_file f = false -> valid_metadata f ->
  loop column_name respond (Yield f :: rest) st =
  loop column_name respond rest
    {| file_path := Some f; scene_count := scene_count st;
       scene_list := scene_list st |}.
Proof.
  intros Himg Hf. cbn [loop]. rewrite (handle_skipped _ _ _ _ Himg Hf).
  by destruct (loop _ _ _ _).
Qed.

Lemma loop_filter column_name respond files :
  Forall valid_metadata files ->
  forall st,
    outcome (loop column_name respond (Yield <$> files) st) =
    outcome (loop column_name respond
               (Yield <$> List.filter image_file files) st).
Proof.
  induction 1 as [|f files Hf _ IH]; intros st; [done|].
  cbn [List.filter]. destruct (image_file f) eqn:Himg.
  - rewrite !fmap_cons. cbn [loop app].
    destruct (handle column_name respond f st) as [hlog [e|st1]]; [done|].
    by rewrite !outcome_continue, IH.
  - rewrite <- IH, fmap_cons, (loop_skip _ _ _ _ _ Himg Hf).
    apply loop_yield_path.
Qed.

(** X13.  Entries that are not images change nothing: for an archive read
    without error whose metadata entry is valid, the run makes the calls
    and ends the way it does on the image entries alone. *)
Theorem other_entries_are_skipped column_name respond genealogy_list files :
  Forall valid_metadata files ->
  process column_name respond genealogy_list (Yield <$> files) =
  process column_name respond genealogy_list
    (Yield <$> List.filter image_file files).
Proof.
  intros Hvalid. rewrite !process_outcome.
  destruct (find_scene_dataset genealogy_list); [|done].
  by rewrite (loop_filter _ _ _ Hvalid).
Qed.

Lemma other_entries_are_skipped_witness :
  process "annotation" says_cat (genealogy [scene_1; scene_2])
    (Yield <$> [good_metadata; image_1; notes_file; image_2]) =
  process "annotation" says_cat (genealogy [scene_1; scene_2])
    (Yield <$> [image_1; image_2]).
Proof.
  apply (other_entries_are_skipped "annotation" says_cat
           (genealogy [scene_1; scene_2])
           [good_metadata; image_1; notes_file; image_2]).
  repeat constructor; intros H; (reflexivity || discriminate H).
Defined.

Lemma handle_file_path column_name respond f st log st' :
  handle column_name respond f st = (log, inr st') -> file_path st' = Some f.
Proof.
  unfold handle. cbn. destruct (String.eqb _ _).
  { destruct (valid_json f); [|done]. by intros [= _ <-]. }
  destruct (image_suffix _); cbn; [|by intros [= _ <-]].
  destruct (Nat.eqb _ _); [done|].
  destruct (annotate _ _ _ _). by intros [= _ <-].
Qed.

Lemma loop_read_error column_name respond f e rest st :
  (loop column_name respond (Yield f :: ReadError e :: rest) st).2 =
  (loop column_name respond (Yield f :: Yield f :: rest) st).2 /\
  progress_values
    (loop column_name respond (Yield f :: ReadError e :: rest) st).1 =
  progress_values
    (loop column_name respond (Yield f :: Yield f :: rest) st).1.
Proof.
  cbn [loop app].
  destruct (handle column_name respond f st) as [hlog [x|st1]] eqn:Hh;
    [done|].
  rewrite (handle_file_path _ _ _ _ _ _ Hh).
  destruct (handle column_name respond f st1) as [hlog1 [x|st2]];
    cbn [fst snd app].
  { split; [done|]. rewrite !progress_values_app. f_equal. }
  destruct (loop column_name respond rest st2) as [log r]. cbn [fst snd].
  split; [done|]. rewrite (progress_values_app hlog), (progress_values_app hlog).
  f_equal.
Qed.

(** X14.  Read errors of the archive.  An error at the very first read ends the
    run with [UnboundLocalError], after the error was printed.  An error
    after an entry makes the loop handle that entry once more: the run
    ends, and counts its progress, as if the archive had yielded the entry
    twice. *)
Theorem read_error_repeats_previous_entry column_name respond genealogy_list
    scene_dataset :
  find_scene_dataset genealogy_list = Some scene_dataset ->
  (forall e rest,
     process column_name respond genealogy_list (ReadError e :: rest) =
       ([Printed ("Error reading file: " +:+ e)], Raise UnboundLocalError)) /\
  (forall pre f e rest,
     let failing := pre ++ Yield f :: ReadError e :: rest in
     let twice := pre ++ Yield f :: Yield f :: rest in
     (process column_name respond genealogy_list failing).2 =
     (process column_name respond genealogy_list twice).2 /\
     progress_values (process column_name respond genealogy_list failing).1 =
     progress_values (process column_name respond genealogy_list twice).1).
Proof.
  intros Hfind. split.
  - intros e rest. unfold process. by rewrite Hfind.
  - intros pre f e rest failing twice. unfold failing, twice, process.
    rewrite Hfind, !loop_app.
    destruct (loop column_name respond pre _) as [log0 [x|st0]]; [done|].
    destruct (loop_read_error column_name respond f e rest st0) as [Hr Hp].
    destruct (loop column_name respond (Yield f :: ReadError e :: rest) st0)
      as [log1 r1].
    destruct (loop column_name respond (Yield f :: Yield f :: rest) st0)
      as [log2 r2].
    cbn [fst snd] in Hr, Hp. subst r2.
    destruct r1 as [x|st]; cbn -[progress_values].
    + by rewrite !progress_values_app, Hp.
    + destruct (scene_list st); cbn -[progress_values];
        by rewrite !progress_values_app, Hp.
Qed.

Lemma read_error_repeats_previous_entry_witness :
  progress_values
    (process "annotation" says_cat (genealogy [scene_1; scene_2])
       [Yield image_1; ReadError "broken archive"]).1
  = [ratio 2 1; ratio 2 2].
Proof.
  destruct (read_error_repeats_previous_entry "annotation" says_cat
              (genealogy [scene_1; scene_2])
              {| type := "video-scene-detector";
                 dataset_items := [scene_1; scene_2] |})
    as [_ Hrepeat]; [reflexivity|].
  destruct (Hrepeat [] image_1 "broken archive" []) as [_ Hp].
  cbn [app] in Hp. rewrite Hp. vm_compute. reflexivity.
Defined.

End VlmArchive.

Section VlmTargets.
Import Vlm VlmExamples MoreExamples.

Lemma handle_matched column_name respond f st pre scene_dict scene_id post
    content :
  image_file f = true ->
  respond (S (scene_count st)) f = Prediction content ->
  scene_list st = pre ++ scene_dict :: post ->
  Forall (other_target (name f)) pre ->
  scene_dict !! "id" = Some scene_id ->
  target_id scene_id = name f ->
  exists log,
    handle column_name respond f st =
    (log, inr {| file_path := Some f; scene_count := S (scene_count st);
                 scene_list :=
                   pre ++ <[column_name := content]> scene_dict :: post |}).
Proof.
  intros Himg Hresp Hlist Hpre Hid Htarget.
  assert (scene_list st <> []) as Hne by (rewrite Hlist; by destruct pre).
  rewrite (handle_image _ _ _ _ Himg Hne). cbn zeta.
  rewrite Hresp. unfold annotate.
  assert (match_scene column_name content (name f) (scene_list st)
          = Matched (pre ++ <[column_name := content]> scene_dict :: post))
    as ->.
  { rewrite Hlist. by apply match_scene_first with scene_id. }
  by eexists.
Qed.

(** X15.  When the archive yields the same image twice, the later prediction
    replaces the earlier one in the matching record (for an output column
    other than [id]); the other records stay as they were. *)
Theorem later_prediction_replaces_earlier column_name respond f st pre
    scene_dict scene_id post first second :
  column_name <> "id" ->
  image_file f = true ->
  scene_list st = pre ++ scene_dict :: post ->
  Forall (other_target (name f)) pre ->
  scene_dict !! "id" = Some scene_id ->
  target_id scene_id = name f ->
  respond (S (scene_count st)) f = Prediction first ->
  respond (S (S (scene_count st))) f = Prediction second ->
  exists log st',
    loop column_name respond [Yield f; Yield f] st = (log, inr st') /\
    scene_count st' = S (S (scene_count st)) /\
    scene_list st' = pre ++ <[column_name := second]> scene_dict :: post.
Proof.
  intros Hcol Himg Hlist Hpre Hid Htarget H1 H2.
  destruct (handle_matched column_name respond f st pre scene_dict scene_id
              post first Himg H1 Hlist Hpre Hid Htarget) as [log1 Hh1].
  destruct (handle_matched column_name respond f
              {| file_path := Some f; scene_count := S (scene_count st);
                 scene_list :=
                   pre ++ <[column_name := first]> scene_dict :: post |}
              pre (<[column_name := first]> scene_dict) scene_id post second
              Himg H2 eq_refl Hpre)
    as [log2 Hh2]; [by rewrite lookup_insert_ne|done|].
  cbn [loop app]. rewrite Hh1, Hh2. cbn [scene_count scene_list].
  eexists _, _. split; [done|]. split; [done|]. cbn.
  by rewrite insert_insert_eq.
Qed.

Lemma later_prediction_replaces_earlier_witness :
  exists log st',
    loop "annotation" cat_then_dog [Yield image_2; Yield image_2]
      (start_of [scene_1; scene_2]) = (log, inr st') /\
    scene_list st' = [scene_1; <["annotation" := "dog"]> scene_2].
Proof.
  destruct (later_prediction_replaces_earlier "annotation" cat_then_dog
              image_2 (start_of [scene_1; scene_2]) [scene_1] scene_2
              "123.mp4_scene_2" [] "cat" "dog")
    as (log & st' & Hloop & _ & Hlist).
  - discriminate.
  - reflexivity.
  - reflexivity.
  - constructor; [|constructor]. exists "123.mp4_scene_1".
    split; [reflexivity|]. vm_compute. discriminate.
  - reflexivity.
  - reflexivity.
  - reflexivity.
  - reflexivity.
  - exists log, st'. split; [exact Hloop|exact Hlist].
Defined.

Lemma rfind_dot_jpeg c :
  rfind_dot (c +:+ ".jpeg") = Some (String.length c).
Proof.
  induction c as [|a c IH]; [done|].
  change (String a c +:+ ".jpeg") with (String a (c +:+ ".jpeg")).
  cbn [rfind_dot String.length]. by rewrite IH.
Qed.

Lemma substring_jpeg c :
  String.substring (String.length c) 5 (c +:+ ".jpeg") = ".jpeg".
Proof. induction c as [|a c IH]; [done|]. exact IH. Qed.

Lemma length_jpeg c :
  String.length (c +:+ ".jpeg") = (String.length c + 5)%nat.
Proof.
  induction c as [|a c IH]; [done|].
  change (String a c +:+ ".jpeg") with (String a (c +:+ ".jpeg")).
  cbn [String.length]. by rewrite IH.
Qed.

Lemma suffix_target scene_id :
  suffix (target_id scene_id) = ".jpeg" \/ suffix (target_id scene_id) = "".
Proof.
  unfold target_id, suffix. rewrite rfind_dot_jpeg, length_jpeg.
  destruct (_ && _)%bool; [left|by right].
  replace (String.length (cleaned_id scene_id) + 5
           - String.length (cleaned_id scene_id))%nat with 5%nat by lia.
  apply substring_jpeg.
Qed.

(** X16.  Only names ending in [.jpeg] can be the target of a scene record: an
    image entry with another image suffix ([.jpg], [.png], [.gif]) is sent
    to the model, and, whatever its name and the records (with ids), its
    prediction is dropped with the status "No match found". *)
Theorem only_jpeg_entries_match column_name f content scene_list :
  image_file f = true ->
  suffix (name f) <> ".jpeg" ->
  Forall (fun d => is_Some (d !! "id")) scene_list ->
  (forall scene_id, target_id scene_id <> name f) /\
  annotate column_name (Prediction content) f scene_list =
    ([ UpdateStatus ("Predicting scene annotation for " +:+ name f);
       UpdateStatus ("Prediction for image " +:+ name f +:+ ": " +:+ content);
       UpdateStatus ("No match found for " +:+ name f) ],
     scene_list).
Proof.
  intros Himg Hsfx Hids.
  assert (forall scene_id, target_id scene_id <> name f) as Hnone.
  { intros i Heq. unfold image_file in Himg.
    apply andb_true_iff in Himg. destruct Himg as [_ Himg].
    rewrite <- Heq in Himg, Hsfx.
    destruct (suffix_target i) as [H|H]; [done|]. by rewrite H in Himg. }
  split; [done|]. unfold annotate.
  rewrite match_scene_none; [done|].
  eapply Forall_impl; [exact Hids|]. intros d [i Hi]. by exists i.
Qed.

Lemma only_jpeg_entries_match_witness :
  (annotate "annotation" (Prediction "cat") image_png [scene_1; scene_2]).2
    = [scene_1; scene_2].
Proof.
  destruct (only_jpeg_entries_match "annotation" image_png "cat"
              [scene_1; scene_2]) as [_ Hann].
  - reflexivity.
  - vm_compute. discriminate.
  - constructor; [by eexists|]. constructor; [by eexists|constructor].
  - rewrite Hann. reflexivity.
Defined.

End VlmTargets.

Section PaceJoin.
Import Pace PaceExamples.

Lemma join_row_Some right p p' v :
  Merged p' (Some v) ∈ join_row right p <->
  p' = p /\ v ∈ right /\ vid (meta v) = parent_id p.
Proof.
  unfold join_row.
  pose proof (list_elem_of_filter (fun v => vid (meta v) = parent_id p)
                right v) as Hf.
  destruct (filter _ right) as [|m ms].
  - split.
    + intros H. apply list_elem_of_singleton in H. done.
    + intros (_ & Hin & Hid). exfalso.
      assert (v ∈ []) as H by (by apply Hf). by apply elem_of_nil in H.
  - rewrite list_elem_of_fmap. split.
    + intros (w & [= -> ->] & Hin). apply Hf in Hin. by destruct Hin.
    + intros (-> & Hin & Hid). exists v. split; [done|]. by apply Hf.
Qed.

(** X8.  Merged mode keeps a video only if a parent row has its id: a video
    appears in the written rows exactly when its id is the id of some
    parent row, and the statistics of the other videos are not written at
    all. *)
Theorem merged_rows_keep_matched_videos_only interrupted source top_parent
    video_metadata stats :
  num_rows source <> 0 ->
  aggregate interrupted (items source) = inr video_metadata ->
  calculate_all video_metadata = inr stats ->
  stats <> [] ->
  top_parent <> [] ->
  exists rows,
    (process true interrupted source top_parent).2
      = WriteCsvItemsAndFinish rows /\
    forall v, v ∈ stats ->
      ((exists p, Merged p (Some v) ∈ rows) <->
       vid (meta v) ∈ parent_id <$> top_parent).
Proof.
  intros Hrows Hagg Hcalc Hne Hpar. unfold process.
  destruct (Z.eqb_spec (num_rows source) 0) as [|_]; [done|].
  rewrite Hagg, Hcalc. unfold finish_stage, pd_merge_left.
  destruct stats as [|r stats]; [done|].
  destruct top_parent as [|p0 ps]; [done|]. cbn [snd].
  eexists. split; [done|]. intros v Hv. split.
  - intros [p Hin]. apply list_elem_of_In, in_flat_map in Hin.
    destruct Hin as (p' & Hp' & Hin). apply list_elem_of_In in Hin.
    apply join_row_Some in Hin. destruct Hin as (-> & _ & ->).
    apply list_elem_of_fmap. exists p'. split; [done|].
    by apply list_elem_of_In.
  - intros Hin. apply list_elem_of_fmap in Hin.
    destruct Hin as (p & Hid & Hp). exists p.
    apply list_elem_of_In, in_flat_map. exists p.
    split; [by apply list_elem_of_In|].
    apply list_elem_of_In, join_row_Some. done.
Qed.

Lemma merged_rows_keep_matched_videos_only_witness :
  exists rows,
    (process true never three_shot_source [parent_of "x"; parent_of "y"]).2
      = WriteCsvItemsAndFinish rows /\
    length rows = 2%nat.
Proof.
  edestruct (merged_rows_keep_matched_videos_only never three_shot_source
               [parent_of "x"; parent_of "y"]) as (rows & Hrows & _).
  - vm_compute. discriminate.
  - reflexivity.
  - reflexivity.
  - discriminate.
  - discriminate.
  - exists rows. split; [exact Hrows|].
    vm_compute in Hrows. injection Hrows as <-. reflexivity.
Defined.

End PaceJoin.

Section Written.
Import Vlm VlmExamples MoreExamples.





End Written.
